(** * Object matcher of internal/matchers/matchers.go

    A shallow embedding of the Gomega matcher that compares two Kubernetes
    objects through a filtered JSON merge patch, and the properties of its
    path filter (allow pass, ignore pass) and of [Match]. *)

From stdpp Require Import gmap strings list fin_maps sorting.
From Stdlib Require Import Floats.

Local Open Scope string_scope.
Set Warnings "-register-all".

(** ** Go values and control flow *)

(** What [json.Unmarshal] stores in an [interface{}]: nil, bool, float64,
    string, []interface{} or map[string]interface{}. *)
Inductive value : Type :=
  | VNull
  | VBool (b : bool)
  | VNumber (f : float)
  | VString (s : string)
  | VArray (l : list value)
  | VObject (m : gmap string value).

(** A path is a [[]string]; a path list is a [[][]string]. *)
Abbreviation path := (list string).

(** A run-time panic aborts the call; [Return] is normal completion. *)
Inductive panic : Type :=
  | IndexOutOfRange
  | ReflectValueError.

Inductive outcome (A : Type) : Type :=
  | Return (a : A)
  | Panic (p : panic).
Arguments Return {A} a.
Arguments Panic {A} p.

Definition bind {A B} (c : outcome A) (k : A → outcome B) : outcome B :=
  match c with
  | Return a => k a
  | Panic p => Panic p
  end.

Notation "x ←! c ; k" := (bind c (fun x => k))
  (at level 20, c at level 100, k at level 200, right associativity,
   format "x  ←!  c ;  '/' k").

(** Go's [error] values, and the [(T, error)] result of a fallible call. *)
Inductive error : Type :=
  | ErrNilCompare
  | ErrExternal (msg : string)
  | ErrWrap (e : error) (msg : string).

Inductive result (A : Type) : Type :=
  | Ok (a : A)
  | Err (e : error).
Arguments Ok {A} a.
Arguments Err {A} e.

Definition rbind {A B} (c : result A) (k : A → result B) : result B :=
  match c with
  | Ok a => k a
  | Err e => Err e
  end.

Notation "x ←? c ; k" := (rbind c (fun x => k))
  (at level 20, c at level 100, k at level 200, right associativity,
   format "x  ←?  c ;  '/' k").

(** A [[]byte]; the nil slice and the empty slice are both [""]. *)
Abbreviation bytes := string (only parsing).

(** [s[0]] on a slice: panics when the slice is empty. *)
Definition index0 {A} (s : list A) : outcome A :=
  match s with
  | [] => Panic IndexOutOfRange
  | x :: _ => Return x
  end.

(** ** The allow pass: [filterDiffMap] *)

(** [len(allowPaths) == 1 && allowPaths[0][0] == "*"] *)
Definition isWildcard (allowPaths : list path) : outcome bool :=
  if Nat.eqb (length allowPaths) 1 then
    p ←! index0 allowPaths;
    s ←! index0 p;
    Return (String.eqb s "*")
  else Return false.

(** The first inner loop: is [k] the first segment of some allow path?
    The scan stops at the first hit. *)
Fixpoint isAllowed (k : string) (allowPaths : list path) : outcome bool :=
  match allowPaths with
  | [] => Return false
  | p :: rest =>
      s ←! index0 p;
      if String.eqb k s then Return true else isAllowed k rest
  end.

(** The second inner loop: the tails of the paths of length > 1 under [k],
    appended in list order. *)
Fixpoint collectNested (k : string) (allowPaths nestedPaths : list path)
  : outcome (list path) :=
  match allowPaths with
  | [] => Return nestedPaths
  | p :: rest =>
      s ←! index0 p;
      if String.eqb k s && Nat.ltb 1 (length p)
      then collectNested k rest (nestedPaths ++ [drop 1 p])
      else collectNested k rest nestedPaths
  end.

(** The function body, given the body of its [range] loop: the wildcard
    fast path, then one loop step per entry of the map. Go visits the
    entries in no specified order; a step reads and writes its own key
    only, so the fold below, in the order of the map's entries, stands
    for all of them ([foldr_steps_inv] gives the result key by key). *)
Definition filterDiffMapWith
    (step : string → value → list path → gmap string value →
            outcome (gmap string value))
    (diffMap : gmap string value) (allowPaths : list path)
  : outcome (gmap string value) :=
  w ←! isWildcard allowPaths;
  if w then Return diffMap
  else map_fold (λ k m acc, d ←! acc; step k m allowPaths d)
                (Return diffMap) diffMap.

(** One iteration of [for k, m := range diffMap], on the current map [d].
    The nested map is shared with its parent, so what the recursive call
    did to it is visible under [k] afterwards. *)
Fixpoint filterEntry (k : string) (m : value) (allowPaths : list path)
    (d : gmap string value) {struct m} : outcome (gmap string value) :=
  allowed ←! isAllowed k allowPaths;
  if negb allowed then Return (delete k d)
  else
    match m with
    | VObject nestedMap =>
        nestedPaths ←! collectNested k allowPaths [];
        if Nat.eqb (length nestedPaths) 0 then Return d
        else
          nestedMap' ←! filterDiffMapWith filterEntry nestedMap nestedPaths;
          let d' := <[k := VObject nestedMap']> d in
          if Nat.eqb (size nestedMap') 0 then Return (delete k d') else Return d'
    | _ => Return d
    end.

Definition filterDiffMap : gmap string value → list path →
                           outcome (gmap string value) :=
  filterDiffMapWith filterEntry.

(** ** The ignore pass: [removePath] *)

Fixpoint removePath (diffMap : gmap string value) (p : path)
  : gmap string value :=
  match p with
  | [] => diffMap
  | k :: tail =>
      match tail with
      | [] => delete k diffMap
      | _ :: _ =>
          match diffMap !! k with
          | Some (VObject nestedMap) =>
              let nestedMap' := removePath nestedMap tail in
              let d' := <[k := VObject nestedMap']> diffMap in
              if Nat.eqb (size nestedMap') 0 then delete k d' else d'
          | _ => diffMap
          end
      end
  end.

(** [for _, path := range ignorePaths { removePath(diffMap, path) }] *)
Definition removePaths (diffMap : gmap string value) (ignorePaths : list path)
  : gmap string value :=
  fold_left removePath ignorePaths diffMap.

(** The two passes of [filterDiff] on the decoded diff: the allow pass,
    then the ignore pass. *)
Definition filterPasses (diffMap : gmap string value)
    (allow ignore : list path) : outcome (gmap string value) :=
  diffMap' ←! filterDiffMap diffMap allow;
  Return (removePaths diffMap' ignore).

(** ** Collaborators

    The code outside this package that [Match] calls. An operand is a
    value of interface type: what [original runtime.Object] and
    [actual interface{}] hold. *)
Class Collaborators := {
  Object : Type;
  (** [reflect.ValueOf(x).IsNil()]; it panics on a value of a kind that
      has no nil *)
  reflectIsNil : Object → outcome bool;
  (** [json.Marshal] on an operand *)
  jsonMarshal : Object → result bytes;
  (** [jsonpatch.CreateMergePatch] *)
  CreateMergePatch : bytes → bytes → result bytes;
  (** [json.Unmarshal] into a fresh [map[string]interface{}] *)
  jsonUnmarshal : bytes → result (gmap string value);
  (** the JSON text of a float64; an error for NaN and the infinities *)
  formatFloat : float → result bytes;
  (** the JSON string literal of a Go string, quotes included *)
  quoteString : string → bytes;
}.

(** ** [json.Marshal] on the filtered map *)

Fixpoint sequenceR {A} (l : list (result A)) : result (list A) :=
  match l with
  | [] => Ok []
  | r :: rest => a ←? r; as' ←? sequenceR rest; Ok (a :: as')
  end.

Definition keyLe {A} (a b : string * A) : Prop :=
  Is_true (String.leb a.1 b.1).

#[global] Instance keyLe_dec {A} (a b : string * A) : Decision (keyLe a b).
Proof. unfold keyLe. apply _. Defined.

Section Encode.
Context `{Collaborators}.

(** One [key:value] member of an object. *)
Definition marshalMember (kv : string * result bytes) : result bytes :=
  v ←? kv.2; Ok (quoteString kv.1 ++ ":" ++ v).

(** An object: its members in sorted key order, between braces. *)
Definition marshalMembers (kvs : list (string * result bytes))
  : result bytes :=
  ms ←? sequenceR (marshalMember <$> merge_sort keyLe kvs);
  Ok ("{" ++ String.concat "," ms ++ "}").

Fixpoint marshalValue (v : value) : result bytes :=
  match v with
  | VNull => Ok "null"
  | VBool b => Ok (if b then "true" else "false")
  | VNumber f => formatFloat f
  | VString s => Ok (quoteString s)
  | VArray l =>
      es ←? sequenceR (map marshalValue l);
      Ok ("[" ++ String.concat "," es ++ "]")
  | VObject m => marshalMembers (map_to_list (marshalValue <$> m))
  end.

(** [json.Marshal(&diffMap)] *)
Definition marshalMap (diffMap : gmap string value) : result bytes :=
  marshalValue (VObject diffMap).
End Encode.

(** ** Options *)

Record MatchOptions := mkMatchOptions {
  ignorePaths : list path;
  allowPaths : list path;
}.

Inductive MatchOption : Type :=
  | IgnorePaths (i : list path)
  | AllowPaths (i : list path).

Definition ApplyToMatcher (opt : MatchOption) (opts : MatchOptions)
  : MatchOptions :=
  match opt with
  | IgnorePaths i =>
      {| ignorePaths := ignorePaths opts ++ i; allowPaths := allowPaths opts |}
  | AllowPaths i =>
      {| ignorePaths := ignorePaths opts; allowPaths := allowPaths opts ++ i |}
  end.

Definition ApplyOptions (o : MatchOptions) (opts : list MatchOption)
  : MatchOptions :=
  fold_left (λ o opt, ApplyToMatcher opt o) opts o.

Definition IgnoreAutogeneratedMetadata : MatchOption :=
  IgnorePaths
    [ ["metadata"; "uid"];
      ["metadata"; "generation"];
      ["metadata"; "creationTimestamp"];
      ["metadata"; "resourceVersion"];
      ["metadata"; "managedFields"];
      ["metadata"; "deletionGracePeriodSeconds"];
      ["metadata"; "deletionTimestamp"];
      ["metadata"; "selfLink"];
      ["metadata"; "generateName"] ].

(** ** The matcher *)

Section Matcher.
Context `{Collaborators}.

Record Matcher := mkMatcher {
  original : Object;
  diff : bytes;
  options : MatchOptions;
}.

Definition EqualObject (orig : Object) (opts : list MatchOption)
  : Matcher :=
  let matchOptions := ApplyOptions (mkMatchOptions [] []) opts in
  let matchOptions :=
    if Nat.eqb (length (allowPaths matchOptions)) 0
    then {| ignorePaths := ignorePaths matchOptions;
            allowPaths := [["*"]] |}
    else matchOptions in
  {| original := orig; diff := ""; options := matchOptions |}.

Definition filterDiff (diff : bytes) (allow ignore : list path)
  : outcome (result bytes) :=
  match jsonUnmarshal diff with
  | Err err => Return (Err (ErrWrap err "failed to unmarshal merge diff"))
  | Ok diffMap =>
      diffMap' ←! filterPasses diffMap allow ignore;
      match marshalMap diffMap' with
      | Err err => Return (Err (ErrWrap err "failed to marshal merge diff"))
      | Ok diff' => Return (Ok diff')
      end
  end.

Definition calculateDiff (m : Matcher) (actual : Object)
  : outcome (result bytes) :=
  match jsonMarshal (original m) with
  | Err err => Return (Err err)
  | Ok originalJSON =>
      match jsonMarshal actual with
      | Err err => Return (Err err)
      | Ok actualJSON =>
          match CreateMergePatch originalJSON actualJSON with
          | Err err => Return (Err err)
          | Ok diff =>
              filterDiff diff (allowPaths (options m))
                         (ignorePaths (options m))
          end
      end
  end.

Definition setDiff (m : Matcher) (d : bytes) : Matcher :=
  {| original := original m; diff := d; options := options m |}.

(** The matcher after the call, and the pair [(success, err)]. *)
Definition Match (m : Matcher) (actual : Object)
  : outcome (Matcher * (bool * option error)) :=
  actualIsNil ←! reflectIsNil actual;
  originalIsNil ←! reflectIsNil (original m);
  if actualIsNil && originalIsNil then Return (m, (true, None))
  else if actualIsNil || originalIsNil
  then Return (m, (false, Some ErrNilCompare))
  else
    r ←! calculateDiff m actual;
    match r with
    | Err err => Return (setDiff m "", (false, Some err))
    | Ok d => Return (setDiff m d, (String.eqb d "{}", None))
    end.
End Matcher.

(** ** A stand-in for the collaborators

    Enough of the collaborators to run [Match] on the objects of the
    examples: an operand is an interface holding nothing, a nil pointer,
    or an object named by its JSON text; the merge patch of a text against
    itself is [{}] and otherwise the new text, and the patch [replicas5]
    decodes to [{spec:{replicas:5}}]. *)
Inductive fixtureObject : Type :=
  | NilInterface
  | NilPointer
  | Named (text : string).

Definition replicasDelta : gmap string value :=
  {[ "spec" := VObject {[ "replicas" := VNumber 5%float ]} ]}.

Definition fixture : Collaborators := {|
  Object := fixtureObject;
  reflectIsNil := λ x, match x with
                       | NilInterface => Panic ReflectValueError
                       | NilPointer => Return true
                       | Named _ => Return false
                       end;
  jsonMarshal := λ x, match x with
                      | Named text => Ok text
                      | _ => Ok "null"
                      end;
  CreateMergePatch := λ a b, if String.eqb a b then Ok "{}" else Ok b;
  jsonUnmarshal := λ text,
    if String.eqb text "{}" then Ok ∅
    else if String.eqb text "replicas5" then Ok replicasDelta
    else Err (ErrExternal "invalid character");
  formatFloat := λ f,
    if PrimFloat.eqb f 5 then Ok "5"
    else Err (ErrExternal "unsupported value");
  quoteString := λ s, s;
|}.

Definition namedObject (text : string) : @Object fixture := Named text.

Definition nilObject : @Object fixture := NilPointer.

(** ** Vocabulary of the properties *)

(** Every path has a first segment. *)
Definition wellFormed (allow : list path) : Prop :=
  Forall (λ p : path, p ≠ []) allow.

(** The tails handed to the recursive call for key [k]. *)
Definition nestedOf (k : string) (allow : list path) : list path :=
  omap (λ p : path,
          match p with
          | s :: (_ :: _) as tl => if String.eqb k s then Some tl else None
          | _ => None
          end) allow.

(** Some allow path starts with [k]. *)
Definition headedBy (k : string) (allow : list path) : Prop :=
  Exists (λ p : path, head p = Some k) allow.

#[global] Instance headedBy_dec k allow : Decision (headedBy k allow).
Proof. unfold headedBy. apply _. Defined.

(** What a loop step leaves under its own key: [None] when the key is
    deleted. *)
Definition entryResult (k : string) (m : value) (allow : list path)
  : outcome (option value) :=
  allowed ←! isAllowed k allow;
  if negb allowed then Return None
  else
    match m with
    | VObject nestedMap =>
        nestedPaths ←! collectNested k allow [];
        if Nat.eqb (length nestedPaths) 0 then Return (Some m)
        else
          nestedMap' ←! filterDiffMap nestedMap nestedPaths;
          Return (if Nat.eqb (size nestedMap') 0 then None
                  else Some (VObject nestedMap'))
    | _ => Return (Some m)
    end.

Definition setKey (k : string) (o : option value) (d : gmap string value)
  : gmap string value :=
  match o with
  | Some v => <[k := v]> d
  | None => delete k d
  end.

(** The allow-list on which the fast path is taken: a single path whose
    first segment is the star. *)
Definition wildcardList (allow : list path) : Prop :=
  ∃ rest, allow = [ "*" :: rest ].

(** The field [f] of the nested map under [x], if both are there. *)
Definition subfield (d : gmap string value) (x f : string) : option value :=
  match d !! x with
  | Some (VObject nestedMap) => nestedMap !! f
  | _ => None
  end.

(** The value found by following a path from the top of the delta. *)
Fixpoint walk (d : gmap string value) (p : path) : option value :=
  match p with
  | [] => None
  | k :: tail =>
      match tail with
      | [] => d !! k
      | _ :: _ =>
          match d !! k with
          | Some (VObject nestedMap) => walk nestedMap tail
          | _ => None
          end
      end
  end.

(** The ignore paths and the allow paths of a list of options, each in
    the order the options give them. *)
Definition ignoredBy (opts : list MatchOption) : list path :=
  concat (omap (λ opt, match opt with
                       | IgnorePaths i => Some i
                       | AllowPaths _ => None
                       end) opts).

Definition allowedBy (opts : list MatchOption) : list path :=
  concat (omap (λ opt, match opt with
                       | AllowPaths i => Some i
                       | IgnorePaths _ => None
                       end) opts).

(** [v'] is what filtering may leave of [v]: a nested map stays a nested
    map, anything else stays as it is. *)
Definition leftOf (v' v : value) : Prop :=
  match v' with
  | VObject _ => ∃ nestedMap, v = VObject nestedMap
  | _ => v = v'
  end.

(** Neither path is a prefix of the other. *)
Definition apart (p q : path) : Prop :=
  ¬ p `prefix_of` q ∧ ¬ q `prefix_of` p.

(** The two-segment paths [k.f] for the fields [f] of a list. *)
Definition fieldsUnder (k : string) (fields : list string) : list path :=
  (λ f, [k; f]) <$> fields.

(** The field names of [IgnoreAutogeneratedMetadata]. *)
Definition autogeneratedFields : list string :=
  [ "uid"; "generation"; "creationTimestamp"; "resourceVersion";
    "managedFields"; "deletionGracePeriodSeconds"; "deletionTimestamp";
    "selfLink"; "generateName" ].

(** A second stand-in: the same operands, and a merge patch that touches
    [metadata.uid] and [metadata.resourceVersion] only. *)
Definition uidDelta : gmap string value :=
  {[ "metadata" := VObject {[ "uid" := VString "xyz";
                              "resourceVersion" := VString "2" ]} ]}.

Definition uidFixture : Collaborators := {|
  Object := fixtureObject;
  reflectIsNil := @reflectIsNil fixture;
  jsonMarshal := @jsonMarshal fixture;
  CreateMergePatch := @CreateMergePatch fixture;
  jsonUnmarshal := λ text,
    if String.eqb text "{}" then Ok ∅ else Ok uidDelta;
  formatFloat := @formatFloat fixture;
  quoteString := @quoteString fixture;
|}.

(** * Properties *)

(** ** Paths and the two inner loops *)

Lemma eqb_true (a b : string) : String.eqb a b = true ↔ a = b.
Proof. apply String.eqb_eq. Qed.

Lemma eqb_false (a b : string) : String.eqb a b = false ↔ a ≠ b.
Proof. apply String.eqb_neq. Qed.

Lemma isAllowed_true k allow :
  wellFormed allow → headedBy k allow → isAllowed k allow = Return true.
Proof.
  induction 1 as [|p rest Hp _ IH]; intros Hex; [by inversion Hex|].
  destruct p as [|s tl]; [done|]. simpl.
  destruct (String.eqb k s) eqn:E; [done|].
  apply IH. inversion Hex as [? ? Hh|]; subst; [|done].
  simpl in Hh. injection Hh as ->. apply eqb_false in E. done.
Qed.

Lemma isAllowed_false k allow :
  wellFormed allow → ¬ headedBy k allow → isAllowed k allow = Return false.
Proof.
  induction 1 as [|p rest Hp _ IH]; intros Hex; [done|].
  destruct p as [|s tl]; [done|]. simpl.
  destruct (String.eqb k s) eqn:E.
  - apply eqb_true in E as ->. exfalso. apply Hex. by left.
  - apply IH. intros Hr. apply Hex. by right.
Qed.

Lemma collectNested_wf k allow acc :
  wellFormed allow →
  collectNested k allow acc = Return (acc ++ nestedOf k allow)%list.
Proof.
  intros Hwf. revert acc.
  induction Hwf as [|p rest Hp _ IH]; intros acc; simpl.
  { by rewrite app_nil_r. }
  destruct p as [|s tl]; [done|]. simpl.
  unfold nestedOf. simpl.
  destruct (String.eqb k s) eqn:E; simpl.
  - destruct tl as [|j tl]; simpl.
    + apply IH.
    + rewrite IH. unfold nestedOf. by rewrite <- app_assoc.
  - rewrite IH. unfold nestedOf. by destruct tl.
Qed.

Lemma elem_of_nestedOf k allow (t : path) :
  t ∈ nestedOf k allow ↔ t ≠ [] ∧ (k :: t) ∈ allow.
Proof.
  unfold nestedOf. rewrite list_elem_of_omap. split.
  - intros (p & Hin & Hp). destruct p as [|s [|j tl]]; try done.
    destruct (String.eqb k s) eqn:E; [|done].
    apply eqb_true in E as ->. injection Hp as <-. done.
  - intros [Hne Hin]. exists (k :: t). split; [done|].
    destruct t; [done|]. by rewrite String.eqb_refl.
Qed.

Lemma nestedOf_wf k allow : wellFormed (nestedOf k allow).
Proof.
  apply Forall_forall. intros t Ht. by apply elem_of_nestedOf in Ht as [? _].
Qed.

Lemma isWildcard_wf allow :
  wellFormed allow →
  isWildcard allow =
    Return (match allow with
            | [s :: _] => String.eqb s "*"
            | _ => false
            end).
Proof.
  intros Hwf. destruct allow as [|p [|q rest]]; [done|..].
  - apply Forall_cons in Hwf as [Hp _]. by destruct p.
  - by destruct p.
Qed.

(** ** One loop step, and the loop *)

Lemma filterEntry_entryResult k m allow d :
  d !! k = Some m →
  filterEntry k m allow d =
    (o ←! entryResult k m allow; Return (setKey k o d)).
Proof.
  intros Hk. unfold entryResult.
  destruct m; simpl;
    (destruct (isAllowed k allow) as [[]|]; simpl; [|done..]);
    try (by rewrite insert_id).
  destruct (collectNested k allow []) as [nested|]; simpl; [|done].
  destruct (Nat.eqb (length nested) 0); simpl; [by rewrite insert_id|].
  fold filterDiffMap.
  destruct (filterDiffMap m nested) as [m'|]; simpl; [|done].
  destruct (Nat.eqb (size m') 0); simpl; [|done].
  by rewrite delete_insert_eq.
Qed.

(** When the loop returns, every step has returned and every key holds
    what its own step left there. *)
Lemma foldr_steps_inv allow (l : list (string * value)) : ∀ d d',
  NoDup l.*1 →
  (∀ k m, (k, m) ∈ l → d !! k = Some m) →
  foldr (uncurry (λ k m acc, d0 ←! acc; filterEntry k m allow d0))
        (Return d) l = Return d' →
  (∀ k m, (k, m) ∈ l → entryResult k m allow = Return (d' !! k)) ∧
  (∀ k, k ∉ l.*1 → d' !! k = d !! k).
Proof.
  induction l as [|[k m] l IH]; intros d d' Hnd Hd; simpl.
  { intros [= <-]. split; [|done]. intros k m Hin. inversion Hin. }
  apply NoDup_cons in Hnd as [Hk Hnd].
  destruct (foldr _ _ l) as [d1|] eqn:E1; [|done]. simpl.
  destruct (IH d d1) as [Hin1 Hout1]; [done| |done|].
  { intros k' m' Hin. apply Hd. by right. }
  rewrite filterEntry_entryResult.
  2:{ rewrite Hout1; [|done]. apply Hd. by left. }
  destruct (entryResult k m allow) as [o|] eqn:Ho; [|done]. simpl.
  intros [= <-]. split.
  - intros k' m' Hin. apply elem_of_cons in Hin as [[= -> ->]|Hin].
    + rewrite Ho. f_equal. destruct o; simpl;
        by rewrite ?lookup_insert_eq, ?lookup_delete_eq.
    + assert (k' ≠ k) as Hne.
      { intros ->. apply Hk. apply list_elem_of_fmap. by exists (k, m'). }
      rewrite (Hin1 _ _ Hin). f_equal. destruct o; simpl;
        by rewrite ?lookup_insert_ne, ?lookup_delete_ne.
  - intros k' Hk'. apply not_elem_of_cons in Hk' as [Hne Hk'].
    rewrite <- Hout1 by done. destruct o; simpl;
      by rewrite ?lookup_insert_ne, ?lookup_delete_ne.
Qed.

Lemma filterDiffMap_steps_inv d allow d' :
  isWildcard allow = Return false →
  filterDiffMap d allow = Return d' →
  ∀ k, match d !! k with
       | Some m => entryResult k m allow = Return (d' !! k)
       | None => d' !! k = None
       end.
Proof.
  intros Hw. unfold filterDiffMap, filterDiffMapWith. rewrite Hw. simpl.
  rewrite map_fold_foldr. intros Heq.
  destruct (foldr_steps_inv allow (map_to_list d) d d') as [Hin Hout].
  - apply NoDup_fst_map_to_list.
  - intros k m Hin. by apply elem_of_map_to_list.
  - done.
  - intros k. destruct (d !! k) as [m|] eqn:Hk.
    + apply Hin. by apply elem_of_map_to_list.
    + rewrite Hout; [done|]. intros Hel.
      apply list_elem_of_fmap in Hel as ([k' m] & -> & Hel).
      apply elem_of_map_to_list in Hel. simpl in Hk. congruence.
Qed.

(** The loop returns when every step does. *)
Lemma foldr_steps_returns allow (l : list (string * value)) d :
  NoDup l.*1 →
  (∀ k m, (k, m) ∈ l → d !! k = Some m) →
  (∀ k m, (k, m) ∈ l → ∃ o, entryResult k m allow = Return o) →
  ∃ d', foldr (uncurry (λ k m acc, d0 ←! acc; filterEntry k m allow d0))
              (Return d) l = Return d'.
Proof.
  induction l as [|[k m] l IH]; intros Hnd Hd Hret; simpl; [by eauto|].
  apply NoDup_cons in Hnd as [Hk Hnd].
  destruct IH as [d1 E1]; [done|..].
  { intros k' m' Hin. apply Hd. by right. }
  { intros k' m' Hin. apply Hret. by right. }
  destruct (foldr_steps_inv allow l d d1) as [_ Hout1]; [done| |done|].
  { intros k' m' Hin. apply Hd. by right. }
  rewrite E1. simpl. rewrite filterEntry_entryResult.
  2:{ rewrite Hout1; [|done]. apply Hd. by left. }
  destruct (Hret k m) as [o ->]; [by left|]. simpl. by eauto.
Qed.

(** Off the fast path, the loop succeeds when each step does, and then
    every key holds what its own step left there. *)
Lemma filterDiffMap_steps d allow :
  isWildcard allow = Return false →
  (∀ k m, d !! k = Some m → ∃ o, entryResult k m allow = Return o) →
  ∃ d', filterDiffMap d allow = Return d' ∧
        ∀ k, match d !! k with
             | Some m => entryResult k m allow = Return (d' !! k)
             | None => d' !! k = None
             end.
Proof.
  intros Hw Hret.
  destruct (foldr_steps_returns allow (map_to_list d) d) as [d' Heq].
  - apply NoDup_fst_map_to_list.
  - intros k m Hin. by apply elem_of_map_to_list.
  - intros k m Hin. apply Hret. by apply elem_of_map_to_list.
  - assert (filterDiffMap d allow = Return d') as Hd'.
    { unfold filterDiffMap, filterDiffMapWith. rewrite Hw. simpl.
      by rewrite map_fold_foldr. }
    exists d'. split; [done|]. by apply filterDiffMap_steps_inv.
Qed.


Lemma entryResult_wf k m allow :
  wellFormed allow →
  entryResult k m allow =
    if decide (headedBy k allow) then
      match m with
      | VObject nestedMap =>
          if Nat.eqb (length (nestedOf k allow)) 0 then Return (Some m)
          else
            nestedMap' ←! filterDiffMap nestedMap (nestedOf k allow);
            Return (if Nat.eqb (size nestedMap') 0 then None
                    else Some (VObject nestedMap'))
      | _ => Return (Some m)
      end
    else Return None.
Proof.
  intros Hwf. unfold entryResult. case_decide as Hh.
  - rewrite isAllowed_true by done. simpl.
    destruct m; try done. by rewrite collectNested_wf.
  - by rewrite isAllowed_false.
Qed.

(** *** The allow pass returns on well-formed allow-lists

    The paths handed to a recursive call are strictly shorter, so the
    argument is by induction on a bound of their lengths. *)
Lemma filterDiffMap_total_bounded n allow d :
  wellFormed allow →
  Forall (λ p : path, (length p ≤ n)%nat) allow →
  ∃ d', filterDiffMap d allow = Return d'.
Proof.
  revert allow d. induction n as [|n IH]; intros allow d Hwf Hlen.
  - destruct allow as [|p rest].
    + destruct (filterDiffMap_steps d []) as (d' & Hd' & _); [done| |by eauto].
      intros k m _. rewrite entryResult_wf by done. rewrite decide_False; [by eauto|].
      intros Hex. inversion Hex.
    + apply Forall_cons in Hwf as [Hp _]. apply Forall_cons in Hlen as [Hl _].
      destruct p; [done|simpl in Hl; lia].
  - pose proof (isWildcard_wf allow Hwf) as Hw.
    destruct (match allow with [s :: _] => String.eqb s "*" | _ => false end) eqn:E.
    + exists d. unfold filterDiffMap, filterDiffMapWith. by rewrite Hw.
    + destruct (filterDiffMap_steps d allow) as (d' & Hd' & _); [done| |by eauto].
      intros k m _. rewrite entryResult_wf by done.
      case_decide; [|by eauto]. destruct m; try by eauto.
      destruct (Nat.eqb (length (nestedOf k allow)) 0); [by eauto|].
      destruct (IH (nestedOf k allow) m) as [m' ->].
      * apply nestedOf_wf.
      * apply Forall_forall. intros t Ht. apply elem_of_nestedOf in Ht as [_ Ht].
        rewrite Forall_forall in Hlen. specialize (Hlen _ Ht). simpl in Hlen. lia.
      * simpl. by eauto.
Qed.

Lemma filterDiffMap_total allow d :
  wellFormed allow → ∃ d', filterDiffMap d allow = Return d'.
Proof.
  intros Hwf. apply (filterDiffMap_total_bounded (length (concat allow))); [done|].
  clear. induction allow as [|p rest IH]; [done|].
  simpl. rewrite length_app. constructor; [lia|].
  eapply Forall_impl; [exact IH|]. simpl. intros. lia.
Qed.

Lemma entryResult_total k m allow :
  wellFormed allow → ∃ o, entryResult k m allow = Return o.
Proof.
  intros Hwf. rewrite entryResult_wf by done.
  case_decide; [|by eauto]. destruct m; try by eauto.
  destruct (Nat.eqb (length (nestedOf k allow)) 0); [by eauto|].
  destruct (filterDiffMap_total (nestedOf k allow) m) as [m' ->];
    [apply nestedOf_wf|].
  simpl. by eauto.
Qed.

(** Off the fast path each key of the result holds what its step left. *)
Lemma filterDiffMap_lookup d allow :
  wellFormed allow →
  isWildcard allow = Return false →
  ∃ d', filterDiffMap d allow = Return d' ∧
        ∀ k, match d !! k with
             | Some m => entryResult k m allow = Return (d' !! k)
             | None => d' !! k = None
             end.
Proof.
  intros Hwf Hw. apply filterDiffMap_steps; [done|].
  intros k m _. by apply entryResult_total.
Qed.

(** On the fast path the map is returned as it is. *)
Lemma filterDiffMap_wildcard d allow :
  isWildcard allow = Return true → filterDiffMap d allow = Return d.
Proof. intros Hw. unfold filterDiffMap, filterDiffMapWith. by rewrite Hw. Qed.

(** A key that heads no allow path is dropped. *)
Lemma filterDiffMap_drops d allow k :
  wellFormed allow →
  isWildcard allow = Return false →
  ¬ headedBy k allow →
  ∃ d', filterDiffMap d allow = Return d' ∧ d' !! k = None.
Proof.
  intros Hwf Hw Hk.
  destruct (filterDiffMap_lookup d allow Hwf Hw) as (d' & Hd' & Hl).
  exists d'. split; [done|]. specialize (Hl k).
  destruct (d !! k) as [m|]; [|done].
  rewrite entryResult_wf, decide_False in Hl by done. congruence.
Qed.

(** ** The ignore pass *)

Lemma size_eqb_0 (m : gmap string value) :
  Nat.eqb (size m) 0 = true ↔ m = ∅.
Proof. rewrite Nat.eqb_eq. apply map_size_empty_iff. Qed.

Lemma removePath_nil d : removePath d [] = d.
Proof. done. Qed.

Lemma removePath_single d k : removePath d [k] = delete k d.
Proof. done. Qed.

(** A path of two or more segments, on a key that holds a nested map. *)
Lemma removePath_descend d k j t nestedMap :
  d !! k = Some (VObject nestedMap) →
  removePath d (k :: j :: t) =
    if Nat.eqb (size (removePath nestedMap (j :: t))) 0
    then delete k d
    else <[k := VObject (removePath nestedMap (j :: t))]> d.
Proof.
  intros Hk. change (removePath d (k :: j :: t)) with
    (match d !! k with
     | Some (VObject nestedMap) =>
         let nestedMap' := removePath nestedMap (j :: t) in
         let d' := <[k := VObject nestedMap']> d in
         if Nat.eqb (size nestedMap') 0 then delete k d' else d'
     | _ => d
     end).
  rewrite Hk. simpl. by rewrite delete_insert_eq.
Qed.

(** A path of two or more segments, on a key that is absent or holds
    something else than a nested map. *)
Lemma removePath_skip d k j t :
  (∀ nestedMap, d !! k ≠ Some (VObject nestedMap)) →
  removePath d (k :: j :: t) = d.
Proof.
  intros Hk. change (removePath d (k :: j :: t)) with
    (match d !! k with
     | Some (VObject nestedMap) =>
         let nestedMap' := removePath nestedMap (j :: t) in
         let d' := <[k := VObject nestedMap']> d in
         if Nat.eqb (size nestedMap') 0 then delete k d' else d'
     | _ => d
     end).
  destruct (d !! k) as [[]|]; try done. by edestruct Hk.
Qed.

(** Case analysis on what a long path finds under its first segment. *)
Lemma nested_or_not (d : gmap string value) k :
  (∃ nestedMap, d !! k = Some (VObject nestedMap)) ∨
  (∀ nestedMap, d !! k ≠ Some (VObject nestedMap)).
Proof. destruct (d !! k) as [[]|]; eauto. Qed.

Lemma removePath_empty p : removePath ∅ p = ∅.
Proof.
  destruct p as [|k [|j t]]; [done|apply delete_empty|].
  apply removePath_skip. intros n. by rewrite lookup_empty.
Qed.

(** Keys other than the first segment are left alone. *)
Lemma removePath_lookup_ne d k t i :
  i ≠ k → removePath d (k :: t) !! i = d !! i.
Proof.
  intros Hne. destruct t as [|j t].
  - by rewrite removePath_single, lookup_delete_ne.
  - destruct (nested_or_not d k) as [[n Hn]|Hn].
    + rewrite (removePath_descend _ _ _ _ _ Hn).
      destruct (Nat.eqb _ 0); by rewrite ?lookup_delete_ne, ?lookup_insert_ne.
    + by rewrite removePath_skip.
Qed.

(** What a path does under its first segment depends on that key only. *)
Lemma removePath_local (d1 d2 : gmap string value) k t :
  d1 !! k = d2 !! k →
  removePath d1 (k :: t) !! k = removePath d2 (k :: t) !! k.
Proof.
  intros H12. destruct t as [|j t].
  - by rewrite !removePath_single, !lookup_delete_eq.
  - destruct (nested_or_not d1 k) as [[n Hn]|Hn].
    + rewrite (removePath_descend d1 _ _ _ _ Hn).
      rewrite (removePath_descend d2 _ _ _ n) by congruence.
      destruct (Nat.eqb _ 0); by rewrite ?lookup_delete_eq, ?lookup_insert_eq.
    + rewrite (removePath_skip d1) by done.
      rewrite (removePath_skip d2); [done|].
      intros n'. rewrite <- H12. apply Hn.
Qed.

Lemma removePath_idemp p : ∀ d, removePath (removePath d p) p = removePath d p.
Proof.
  induction p as [|k t IH]; intros d; [done|].
  destruct t as [|j t].
  - rewrite !removePath_single. apply delete_delete_eq.
  - destruct (nested_or_not d k) as [[n Hn]|Hn].
    + rewrite (removePath_descend _ _ _ _ _ Hn).
      destruct (Nat.eqb (size (removePath n (j :: t))) 0) eqn:E.
      * apply removePath_skip. intros n'. by rewrite lookup_delete_eq.
      * rewrite (removePath_descend _ _ _ _ (removePath n (j :: t)))
          by apply lookup_insert_eq.
        rewrite IH, E. apply insert_insert_eq.
    + by rewrite !(removePath_skip d k j t Hn).
Qed.

Lemma removePath_comm p : ∀ q d,
  removePath (removePath d p) q = removePath (removePath d q) p.
Proof.
  induction p as [|k t IH]; intros q d; [done|].
  destruct q as [|k' t']; [done|].
  destruct (decide (k = k')) as [<-|Hne].
  2:{ apply map_eq. intros i.
      destruct (decide (i = k)) as [->|Hik].
      - rewrite (removePath_lookup_ne _ k') by done.
        apply removePath_local. by rewrite removePath_lookup_ne.
      - rewrite (removePath_lookup_ne _ k) by done.
        destruct (decide (i = k')) as [->|Hik'].
        + apply removePath_local. by rewrite removePath_lookup_ne.
        + by rewrite !removePath_lookup_ne. }
  destruct t as [|j t], t' as [|j' t'].
  - done.
  - rewrite !removePath_single.
    rewrite (removePath_skip (delete k d))
      by (intros n; by rewrite lookup_delete_eq).
    destruct (nested_or_not d k) as [[n Hn]|Hn].
    + rewrite (removePath_descend _ _ _ _ _ Hn).
      destruct (Nat.eqb _ 0); by rewrite ?delete_delete_eq, ?delete_insert_eq.
    + by rewrite removePath_skip.
  - rewrite !removePath_single.
    rewrite (removePath_skip (delete k d))
      by (intros n; by rewrite lookup_delete_eq).
    destruct (nested_or_not d k) as [[n Hn]|Hn].
    + rewrite (removePath_descend _ _ _ _ _ Hn).
      destruct (Nat.eqb _ 0); by rewrite ?delete_delete_eq, ?delete_insert_eq.
    + by rewrite removePath_skip.
  - destruct (nested_or_not d k) as [[n Hn]|Hn].
    2:{ rewrite (removePath_skip d k j t Hn), (removePath_skip d k j' t' Hn).
        by rewrite (removePath_skip d k j t Hn). }
    rewrite (removePath_descend d _ j _ _ Hn).
    rewrite (removePath_descend d _ j' _ _ Hn).
    destruct (Nat.eqb (size (removePath n (j :: t))) 0) eqn:E;
      destruct (Nat.eqb (size (removePath n (j' :: t'))) 0) eqn:E'.
    + by rewrite !removePath_skip by (intros n'; by rewrite lookup_delete_eq).
    + rewrite removePath_skip by (intros n'; by rewrite lookup_delete_eq).
      rewrite (removePath_descend _ _ _ _ (removePath n (j' :: t')))
        by apply lookup_insert_eq.
      rewrite <- IH. apply size_eqb_0 in E. rewrite E, removePath_empty.
      simpl. by rewrite delete_insert_eq.
    + rewrite (removePath_skip (delete k d))
        by (intros n'; by rewrite lookup_delete_eq).
      rewrite (removePath_descend _ _ _ _ (removePath n (j :: t)))
        by apply lookup_insert_eq.
      rewrite IH. apply size_eqb_0 in E'. rewrite E', removePath_empty.
      simpl. by rewrite delete_insert_eq.
    + rewrite (removePath_descend _ _ j' _ (removePath n (j :: t)))
        by apply lookup_insert_eq.
      rewrite (removePath_descend _ _ j _ (removePath n (j' :: t')))
        by apply lookup_insert_eq.
      rewrite IH.
      destruct (Nat.eqb _ 0); by rewrite ?delete_insert_eq, ?insert_insert_eq.
Qed.

(** ** The encoding of the filtered map *)

Lemma append_nonempty_r (a b : string) : b ≠ "" → (a ++ b)%string ≠ "".
Proof. intros Hb. destruct a; [done|]. simpl. discriminate. Qed.

Lemma concat_nonempty sep (a : string) rest :
  a ≠ "" → String.concat sep (a :: rest) ≠ "".
Proof.
  intros Ha. destruct a as [|c a]; [done|]. simpl.
  destruct rest; simpl; discriminate.
Qed.

Lemma braces_inv (s : string) : ("{" ++ s ++ "}")%string = "{}" → s = "".
Proof.
  destruct s as [|c s]; [done|]. intros Heq. exfalso.
  cbv [String.append] in Heq. fold String.append in Heq.
  injection Heq as _ Heq. by apply (append_nonempty_r s "}").
Qed.

Lemma Ok_inj {A} (x y : A) : Ok x = Ok y → x = y.
Proof. by intros [= ->]. Qed.

Lemma sequenceR_cons_inv {A} (r : result A) rs l :
  sequenceR (r :: rs) = Ok l →
  ∃ a l', r = Ok a ∧ sequenceR rs = Ok l' ∧ l = a :: l'.
Proof.
  simpl. destruct r as [a|]; [|done]. simpl.
  destruct (sequenceR rs) as [l'|]; [|done]. simpl.
  intros [= <-]. by eauto.
Qed.

Section EncodeFacts.
Context `{Collaborators}.

Lemma marshalMember_nonempty kv b : marshalMember kv = Ok b → b ≠ "".
Proof.
  unfold marshalMember. destruct kv.2 as [v|]; [|done]. simpl.
  intros [= <-]. by apply append_nonempty_r.
Qed.

Lemma marshalMembers_braces kvs : marshalMembers kvs = Ok "{}" ↔ kvs = [].
Proof.
  split; [|by intros ->].
  unfold marshalMembers. intros Hm.
  destruct (merge_sort keyLe kvs) as [|kv sorted] eqn:Hs.
  { apply Permutation_nil_r. rewrite <- Hs. symmetry.
    apply merge_sort_Permutation. }
  exfalso. rewrite fmap_cons in Hm.
  destruct (sequenceR _) as [ms|] eqn:Hseq; [|done].
  apply sequenceR_cons_inv in Hseq as (a & ms' & Ha & _ & ->).
  apply marshalMember_nonempty in Ha.
  change (Ok ("{" ++ String.concat "," (a :: ms') ++ "}") = Ok "{}") in Hm.
  apply Ok_inj, braces_inv in Hm.
  by apply (concat_nonempty "," a ms').
Qed.

(** The filtered map encodes as [{}] exactly when it is empty. *)
Lemma marshalMap_braces (diffMap : gmap string value) :
  marshalMap diffMap = Ok "{}" ↔ diffMap = ∅.
Proof.
  unfold marshalMap. simpl. rewrite marshalMembers_braces.
  rewrite map_to_list_empty_iff. apply fmap_empty_iff.
Qed.
End EncodeFacts.


(** ** [Match] *)

Section MatcherFacts.
Context `{Collaborators}.

(** [Match] on two non-nil operands whose merge patch decodes to [d]. *)
Lemma Match_decoded m a oj aj dj d :
  reflectIsNil a = Return false →
  reflectIsNil (original m) = Return false →
  jsonMarshal (original m) = Ok oj →
  jsonMarshal a = Ok aj →
  CreateMergePatch oj aj = Ok dj →
  jsonUnmarshal dj = Ok d →
  Match m a =
    (d' ←! filterPasses d (allowPaths (options m)) (ignorePaths (options m));
     match marshalMap d' with
     | Err err =>
         Return (setDiff m "",
                 (false, Some (ErrWrap err "failed to marshal merge diff")))
     | Ok b => Return (setDiff m b, (String.eqb b "{}", None))
     end).
Proof.
  intros Ha Ho Hoj Haj Hdj Hd. unfold Match, calculateDiff, filterDiff.
  rewrite Ha, Ho. simpl. rewrite Hoj, Haj, Hdj, Hd.
  destruct (filterPasses d _ _) as [d'|]; simpl; [|done].
  by destruct (marshalMap d').
Qed.

(** C3: on two non-nil operands that serialize and diff without error,
    [Match] reports success exactly when the raw delta, after the allow
    pass and then the ignore pass, is the empty map. *)
Theorem Match_true_iff_filtered_delta_empty m a oj aj dj d :
  reflectIsNil a = Return false →
  reflectIsNil (original m) = Return false →
  jsonMarshal (original m) = Ok oj →
  jsonMarshal a = Ok aj →
  CreateMergePatch oj aj = Ok dj →
  jsonUnmarshal dj = Ok d →
  (∃ m' err, Match m a = Return (m', (true, err))) ↔
  filterPasses d (allowPaths (options m)) (ignorePaths (options m)) = Return ∅.
Proof.
  intros Ha Ho Hoj Haj Hdj Hd.
  rewrite (Match_decoded m a oj aj dj d) by done.
  destruct (filterPasses d _ _) as [d'|p]; simpl.
  - destruct (marshalMap d') as [b|err] eqn:Hb.
    + split.
      * intros (m' & err & [= _ Heq _]). apply eqb_true in Heq as ->.
        apply marshalMap_braces in Hb. by subst.
      * intros [= ->]. assert (b = "{}") as ->.
        { apply Ok_inj. rewrite <- Hb. by apply marshalMap_braces. }
        by eauto.
    + split; [by intros (m' & err' & [=])|].
      intros [= ->]. rewrite (proj2 (marshalMap_braces ∅)) in Hb; done.
  - split; [by intros (m' & err & [=])|done].
Qed.

(** X19: on operands for which the two nil checks return (pointers, nil
    or not), [Match] succeeds without error when both are nil and fails
    with an error when exactly one of them is. Either way the matcher
    comes back as it was: no diff is computed or stored. *)
Theorem Match_nil_operands m actual :
  (reflectIsNil actual = Return true →
   reflectIsNil (original m) = Return true →
   Match m actual = Return (m, (true, None))) ∧
  (∀ actualIsNil originalIsNil,
     reflectIsNil actual = Return actualIsNil →
     reflectIsNil (original m) = Return originalIsNil →
     actualIsNil ≠ originalIsNil →
     ∃ e, Match m actual = Return (m, (false, Some e))).
Proof.
  split.
  - intros Ha Ho. unfold Match. by rewrite Ha, Ho.
  - intros a o Ha Ho Hne. unfold Match. rewrite Ha, Ho. simpl.
    destruct a, o; try done; by eexists.
Qed.

(** With no options the allow-list is the wildcard list. *)
Lemma EqualObject_default orig :
  options (EqualObject orig []) =
    {| ignorePaths := []; allowPaths := [["*"]] |}.
Proof. done. Qed.

(** C9: a matcher built with no options has the wildcard allow-list, and
    matching a non-nil object against itself succeeds: the empty merge
    patch of the object against itself passes the filter as the empty
    map. *)
Theorem Match_reflexive A a :
  reflectIsNil A = Return false →
  jsonMarshal A = Ok a →
  CreateMergePatch a a = Ok "{}" →
  jsonUnmarshal "{}" = Ok ∅ →
  allowPaths (options (EqualObject A [])) = [["*"]] ∧
  filterPasses ∅ (allowPaths (options (EqualObject A [])))
               (ignorePaths (options (EqualObject A []))) = Return ∅ ∧
  Match (EqualObject A []) A =
    Return (setDiff (EqualObject A []) "{}", (true, None)).
Proof.
  intros Hn Ha Hd Hu. split; [done|]. split; [done|].
  rewrite (Match_decoded _ A a a "{}" ∅) by done.
  rewrite EqualObject_default. simpl.
  change (marshalMembers (map_to_list (marshalValue <$> ∅)))
    with (marshalMap ∅).
  by rewrite (proj2 (marshalMap_braces ∅)).
Qed.

End MatcherFacts.

(** ** The allow pass: main results *)

Lemma isWildcard_true_iff allow :
  isWildcard allow = Return true ↔ wildcardList allow.
Proof.
  unfold wildcardList. split.
  - destruct allow as [|[|s p] [|q rest]]; try done.
    simpl. intros [= Hs]. apply eqb_true in Hs as ->. by eauto.
  - by intros [rest ->].
Qed.

Lemma isWildcard_false allow :
  wellFormed allow → ¬ wildcardList allow → isWildcard allow = Return false.
Proof.
  intros Hwf Hnw. rewrite isWildcard_wf by done.
  destruct allow as [|[|s p] [|q rest]]; try done.
  destruct (String.eqb s "*") eqn:E; [|done].
  apply eqb_true in E as ->. exfalso. apply Hnw. by eexists.
Qed.

(** Two or more paths never take the fast path. *)
Lemma isWildcard_two_or_more allow :
  wellFormed allow → (2 ≤ length allow)%nat → isWildcard allow = Return false.
Proof.
  intros Hwf Hlen. apply isWildcard_false; [done|].
  intros [rest ->]. simpl in Hlen. lia.
Qed.

(** Off the fast path, a surviving key heads some allow path. *)
Lemma filterDiffMap_survivor d allow :
  wellFormed allow →
  isWildcard allow = Return false →
  ∃ d', filterDiffMap d allow = Return d' ∧
        ∀ k, is_Some (d' !! k) → headedBy k allow ∧ is_Some (d !! k).
Proof.
  intros Hwf Hw.
  destruct (filterDiffMap_lookup d allow Hwf Hw) as (d' & Hd' & Hl).
  exists d'. split; [done|]. intros k [v Hv]. specialize (Hl k).
  destruct (d !! k) as [m|]; [|congruence].
  split; [|done]. rewrite entryResult_wf in Hl by done.
  case_decide; [done|congruence].
Qed.

(** What the allow pass leaves under a key that holds a nested map and
    has deeper allow paths. *)
Lemma filterDiffMap_nested d allow x nestedMap :
  wellFormed allow →
  isWildcard allow = Return false →
  d !! x = Some (VObject nestedMap) →
  nestedOf x allow ≠ [] →
  ∃ d' nestedMap',
    filterDiffMap d allow = Return d' ∧
    filterDiffMap nestedMap (nestedOf x allow) = Return nestedMap' ∧
    d' !! x = if Nat.eqb (size nestedMap') 0 then None
              else Some (VObject nestedMap').
Proof.
  intros Hwf Hw Hx Hne.
  destruct (filterDiffMap_lookup d allow Hwf Hw) as (d' & Hd' & Hl).
  destruct (filterDiffMap_total (nestedOf x allow) nestedMap)
    as [n' Hn']; [apply nestedOf_wf|].
  exists d', n'. split; [done|]. split; [done|].
  specialize (Hl x). rewrite Hx, entryResult_wf in Hl by done.
  rewrite decide_True in Hl.
  2:{ destruct (nestedOf x allow) as [|t ts] eqn:E; [done|].
      assert (t ∈ nestedOf x allow) as Ht by (rewrite E; by left).
      apply elem_of_nestedOf in Ht as [_ Ht].
      apply Exists_exists. by exists (x :: t). }
  destruct (nestedOf x allow); [done|]. simpl in Hl.
  rewrite Hn' in Hl. simpl in Hl. congruence.
Qed.

(** C1, at a concrete input: with [["x"]] and [["x","y"]] both allowed
    and a delta at [x] holding [y] and [z], the field [z] is filtered out;
    the leaf entry does not keep the subtree of [x] whole. *)
Lemma leaf_entry_does_not_win :
  let d := {[ "x" := VObject {[ "y" := VNull; "z" := VBool true ]} ]} in
  subfield d "x" "z" = Some (VBool true) ∧
  filterDiffMap d [["x"]; ["x"; "y"]] =
    Return {[ "x" := VObject {[ "y" := VNull ]} ]} ∧
  subfield {[ "x" := VObject {[ "y" := VNull ]} ]} "x" "z" = None.
Proof. vm_compute. done. Qed.

(** C1, amended: with [["x"]] and [["x","y"]] both allowed ([y] not the
    star) and a nested map at [x], the allow pass returns, and the deeper
    entries decide what survives under [x]: a field of [x] that is not
    the second segment of an allow path under [x] is dropped, and [x]
    itself is either dropped or still holds a non-empty nested map. *)
Theorem deeper_entries_restrict_subtree d allow x y nestedMap :
  wellFormed allow →
  [x] ∈ allow →
  [x; y] ∈ allow →
  y ≠ "*" →
  d !! x = Some (VObject nestedMap) →
  ∃ d', filterDiffMap d allow = Return d' ∧
        (d' !! x = None ∨
         ∃ nestedMap', d' !! x = Some (VObject nestedMap') ∧ nestedMap' ≠ ∅) ∧
        ∀ f, (∀ rest, x :: f :: rest ∉ allow) → subfield d' x f = None.
Proof.
  intros Hwf Hx Hxy Hy Hd.
  assert ([y] ∈ nestedOf x allow) as Hin by (by apply elem_of_nestedOf).
  assert (isWildcard allow = Return false) as Hw.
  { apply isWildcard_false; [done|]. intros [rest ->].
    apply list_elem_of_singleton in Hx. apply list_elem_of_singleton in Hxy.
    congruence. }
  assert (isWildcard (nestedOf x allow) = Return false) as Hw'.
  { apply isWildcard_false; [apply nestedOf_wf|]. intros [rest Heq].
    rewrite Heq in Hin. apply list_elem_of_singleton in Hin. congruence. }
  destruct (filterDiffMap_nested d allow x nestedMap) as (d' & n' & Hd' & Hn' & Hl);
    [done..| |].
  { intros E. rewrite E in Hin. by apply elem_of_nil in Hin. }
  exists d'. split; [done|].
  destruct (filterDiffMap_survivor nestedMap (nestedOf x allow))
    as (n'' & Hn'' & Hsurv); [apply nestedOf_wf|done|].
  assert (n'' = n') as -> by congruence.
  split.
  - destruct (Nat.eqb (size n') 0) eqn:E; [by left|right].
    exists n'. split; [done|]. intros ->. by rewrite map_size_empty in E.
  - intros f Hf. unfold subfield. rewrite Hl.
    destruct (Nat.eqb (size n') 0); [done|].
    destruct (n' !! f) as [v|] eqn:Hv; [|done]. exfalso.
    destruct (Hsurv f) as [Hh _]; [by eauto|].
    apply Exists_exists in Hh as (t & Ht & Hhead).
    apply elem_of_nestedOf in Ht as [_ Ht].
    destruct t as [|f' rest]; [done|]. simpl in Hhead. injection Hhead as ->.
    by apply (Hf rest).
Qed.

(** The filtering step returns whenever every allow path has a first
    segment; nothing is asked of the ignore-list. *)
Lemma filterPasses_returns d allow ignore :
  wellFormed allow → ∃ d', filterPasses d allow ignore = Return d'.
Proof.
  intros Hwf. unfold filterPasses.
  destruct (filterDiffMap_total allow d Hwf) as [d' ->]. simpl. by eauto.
Qed.

(** C10, at a concrete input: in an allow-list of two paths the star in
    [["a","*"]] is not read as a field name. The fields [p] and [q] under
    [a], neither of them named by the star, both survive: the tail
    [["*"]] reaches the recursive call as a one-path list and takes the
    fast path there. *)
Lemma deeper_star_is_a_wildcard :
  let d := {[ "a" := VObject {[ "p" := VNull; "q" := VBool true ]};
              "c" := VNull ]} in
  filterDiffMap d [["a"; "*"]; ["b"]] =
    Return {[ "a" := VObject {[ "p" := VNull; "q" := VBool true ]} ]} ∧
  subfield d "a" "*" = None.
Proof. vm_compute. done. Qed.

(** C10, amended: the fast path is taken exactly on a one-path list whose
    path starts with the star, whatever follows it, and it returns the
    delta as it is; in a list of two or more paths a star in first
    position is compared with the keys like any other name, so a key
    survives only if it is literally the first segment of some path. A
    star further down a path still opens the fast path of a recursive
    call that receives it as the head of its only path. *)
Theorem wildcard_fast_path :
  (∀ allow, isWildcard allow = Return true ↔ wildcardList allow) ∧
  (∀ d allow, wildcardList allow → filterDiffMap d allow = Return d) ∧
  (∀ d x, filterDiffMap d [["*"; x]] = Return d) ∧
  (∀ d allow,
     wellFormed allow → (2 ≤ length allow)%nat →
     ∃ d', filterDiffMap d allow = Return d' ∧
           ∀ k, is_Some (d' !! k) → headedBy k allow) ∧
  (∀ d allow k nestedMap,
     wellFormed allow → (2 ≤ length allow)%nat →
     d !! k = Some (VObject nestedMap) → nestedMap ≠ ∅ →
     wildcardList (nestedOf k allow) →
     ∃ d', filterDiffMap d allow = Return d' ∧
           d' !! k = Some (VObject nestedMap)).
Proof.
  split; [apply isWildcard_true_iff|]. split.
  { intros d allow Hw. by apply filterDiffMap_wildcard, isWildcard_true_iff. }
  split; [done|]. split.
  - intros d allow Hwf Hlen.
    destruct (filterDiffMap_survivor d allow) as (d' & Hd' & Hs);
      [done|by apply isWildcard_two_or_more|].
    exists d'. split; [done|]. intros k Hk. by apply Hs.
  - intros d allow k n Hwf Hlen Hk Hn Hw.
    destruct (filterDiffMap_nested d allow k n) as (d' & n' & Hd' & Hn' & Hl);
      [done|by apply isWildcard_two_or_more|done| |].
    { destruct Hw as [rest ->]. done. }
    exists d'. split; [done|].
    rewrite filterDiffMap_wildcard in Hn' by (by apply isWildcard_true_iff).
    injection Hn' as <-. rewrite Hl.
    destruct (Nat.eqb (size n) 0) eqn:E; [|done].
    by apply size_eqb_0 in E.
Qed.



Section AllowExample.
Context `{Collaborators}.

(** C2, at the failing input: an allow-list made of one zero-length path
    makes the filtering step panic, whatever the delta and the
    ignore-list, and [Match] with it: the call on two non-nil operands
    that serialize and diff without error does not return. *)
Theorem filterPasses_panics_on_empty_allow_path :
  (∀ d ignore, filterPasses d [[]] ignore = Panic IndexOutOfRange) ∧
  (∀ o a oj aj dj d ignore,
     reflectIsNil a = Return false →
     reflectIsNil o = Return false →
     jsonMarshal o = Ok oj →
     jsonMarshal a = Ok aj →
     CreateMergePatch oj aj = Ok dj →
     jsonUnmarshal dj = Ok d →
     Match (EqualObject o [AllowPaths [[]]; IgnorePaths ignore]) a =
       Panic IndexOutOfRange).
Proof.
  split; [done|].
  intros o a oj aj dj d ignore Ha Ho Hoj Haj Hdj Hd.
  by rewrite (Match_decoded _ a oj aj dj d).
Qed.


End AllowExample.

(** ** The ignore pass: main results *)

Lemma walk_single d k : walk d [k] = d !! k.
Proof. done. Qed.

Lemma walk_descend d k j t :
  walk d (k :: j :: t) =
    match d !! k with
    | Some (VObject nestedMap) => walk nestedMap (j :: t)
    | _ => None
    end.
Proof. done. Qed.

#[global] Instance VObject_inj : Inj (=) (=) VObject.
Proof. by intros m1 m2 [= ->]. Qed.

(** After a removal no empty map sits on the removed path. *)
Lemma removePath_no_remnant p : ∀ d q,
  q ≠ [] → q `prefix_of` p → walk (removePath d p) q ≠ Some (VObject ∅).
Proof.
  induction p as [|k t IH]; intros d q Hq Hpre.
  { apply prefix_nil_inv in Hpre. done. }
  destruct q as [|k' q']; [done|].
  apply prefix_cons_inv_1 in Hpre as Hk. subst k'.
  apply prefix_cons_inv_2 in Hpre.
  destruct t as [|j t].
  - apply prefix_nil_inv in Hpre as ->.
    by rewrite removePath_single, walk_single, lookup_delete_eq.
  - destruct (nested_or_not d k) as [[n Hn]|Hn].
    + rewrite (removePath_descend _ _ _ _ _ Hn).
      destruct (Nat.eqb (size (removePath n (j :: t))) 0) eqn:E.
      * destruct q' as [|j' q'];
          by rewrite ?walk_single, ?walk_descend, lookup_delete_eq.
      * destruct q' as [|j' q'];
          rewrite ?walk_single, ?walk_descend, lookup_insert_eq.
        -- intros Heq. apply (inj Some), (inj VObject) in Heq.
           apply size_eqb_0 in Heq. congruence.
        -- by apply IH.
    + rewrite removePath_skip by done.
      destruct q' as [|j' q']; rewrite ?walk_single, ?walk_descend;
        destruct (d !! k) as [[]|] eqn:Hd; try done; by edestruct Hn.
Qed.

(** C5: what [removePath] does for each length of path. The empty path
    changes nothing; a one-segment path deletes its key; a longer path
    leaves the delta alone when its first segment is absent or holds no
    nested map, and otherwise removes the tail in the nested map and then
    deletes the first-segment key if that map is empty, so that no empty
    map is left on the removed path; removing the only field of a nested
    map removes the parent key. *)
Theorem removePath_by_length d :
  removePath d [] = d ∧
  (∀ k, removePath d [k] = delete k d) ∧
  (∀ k j t,
     (∀ nestedMap, d !! k ≠ Some (VObject nestedMap)) →
     removePath d (k :: j :: t) = d) ∧
  (∀ k j t nestedMap,
     d !! k = Some (VObject nestedMap) →
     (removePath nestedMap (j :: t) = ∅ →
      removePath d (k :: j :: t) = delete k d) ∧
     (removePath nestedMap (j :: t) ≠ ∅ →
      removePath d (k :: j :: t) =
        <[k := VObject (removePath nestedMap (j :: t))]> d)) ∧
  (∀ p q,
     q ≠ [] → q `prefix_of` p →
     walk (removePath d p) q ≠ Some (VObject ∅)) ∧
  (∀ k f v,
     d !! k = Some (VObject {[ f := v ]}) →
     removePath d [k; f] = delete k d).
Proof.
  split; [done|]. split; [done|].
  split; [intros; by apply removePath_skip|].
  split; [|split].
  - intros k j t n Hn. rewrite (removePath_descend _ _ _ _ _ Hn). split.
    + intros ->. by rewrite map_size_empty.
    + intros Hne. destruct (Nat.eqb _ 0) eqn:E; [|done].
      by apply size_eqb_0 in E.
  - intros p q. apply removePath_no_remnant.
  - intros k f v Hk. rewrite (removePath_descend _ _ _ _ _ Hk).
    rewrite removePath_single, delete_singleton_eq. by rewrite map_size_empty.
Qed.

Lemma removePaths_cons d p ignore :
  removePaths d (p :: ignore) = removePaths (removePath d p) ignore.
Proof. done. Qed.

(** One more removal can be moved in front of a whole ignore pass. *)
Lemma removePaths_removePath ignore : ∀ d p,
  removePath (removePaths d ignore) p = removePaths (removePath d p) ignore.
Proof.
  induction ignore as [|q ignore IH]; intros d p; [done|].
  rewrite !removePaths_cons, IH. f_equal. apply removePath_comm.
Qed.

(** C7: running the ignore pass a second time with the same ignore-list
    changes nothing. *)
Theorem removePaths_idempotent d ignore :
  removePaths (removePaths d ignore) ignore = removePaths d ignore.
Proof.
  revert d. induction ignore as [|p ignore IH]; intros d; [done|].
  rewrite !removePaths_cons, removePaths_removePath.
  rewrite removePath_idemp. apply IH.
Qed.

(** C8: the ignore pass gives the same delta for every ordering of the
    ignore-list. *)
Theorem removePaths_order_independent d ignore ignore' :
  ignore ≡ₚ ignore' → removePaths d ignore = removePaths d ignore'.
Proof.
  intros Hp. revert d.
  induction Hp as [|p l l' _ IH|p q l|l l' l'' _ IH _ IH']; intros d.
  - done.
  - rewrite !removePaths_cons. apply IH.
  - rewrite !removePaths_cons. f_equal. apply removePath_comm.
  - by rewrite IH.
Qed.

(** ** The theorems at concrete inputs *)


Lemma Match_true_iff_filtered_delta_empty_witness :
  (∃ m' err,
     Match (EqualObject (namedObject "replicas3") [AllowPaths [["status"]]])
           (namedObject "replicas5") = Return (m', (true, err))) ↔
  filterPasses replicasDelta [["status"]] [] = Return ∅.
Proof.
  apply (@Match_true_iff_filtered_delta_empty fixture
           (EqualObject (namedObject "replicas3") [AllowPaths [["status"]]])
           (namedObject "replicas5") "replicas3" "replicas5" "replicas5"
           replicasDelta); reflexivity.
Defined.

Lemma Match_reflexive_witness :
  allowPaths (options (EqualObject (namedObject "replicas3") [])) = [["*"]] ∧
  filterPasses ∅ [["*"]] [] = Return ∅ ∧
  Match (EqualObject (namedObject "replicas3") []) (namedObject "replicas3") =
    Return (setDiff (EqualObject (namedObject "replicas3") []) "{}", (true, None)).
Proof.
  apply (@Match_reflexive fixture (namedObject "replicas3") "replicas3");
    reflexivity.
Defined.

Lemma deeper_entries_restrict_subtree_witness :
  ∃ d', filterDiffMap
          {[ "x" := VObject {[ "y" := VNull; "z" := VBool true ]} ]}
          [["x"]; ["x"; "y"]] = Return d' ∧
        (d' !! "x" = None ∨
         ∃ nestedMap', d' !! "x" = Some (VObject nestedMap') ∧
                       nestedMap' ≠ ∅) ∧
        ∀ f, (∀ rest, "x" :: f :: rest ∉ [["x"]; ["x"; "y"]]) →
             subfield d' "x" f = None.
Proof.
  apply (deeper_entries_restrict_subtree
           {[ "x" := VObject {[ "y" := VNull; "z" := VBool true ]} ]}
           [["x"]; ["x"; "y"]] "x" "y" {[ "y" := VNull; "z" := VBool true ]}).
  - repeat constructor; discriminate.
  - by left.
  - right. by left.
  - discriminate.
  - reflexivity.
Defined.


Lemma Match_nil_operands_witness :
  Match (EqualObject nilObject []) nilObject =
    Return (EqualObject nilObject [], (true, None)) ∧
  (∃ e, Match (EqualObject nilObject []) (namedObject "replicas3") =
          Return (EqualObject nilObject [], (false, Some e))) ∧
  (∃ e, Match (EqualObject (namedObject "replicas3") []) nilObject =
          Return (EqualObject (namedObject "replicas3") [],
                  (false, Some e))).
Proof.
  split; [|split].
  - apply (proj1 (Match_nil_operands (EqualObject nilObject []) nilObject));
      reflexivity.
  - apply (proj2 (Match_nil_operands (EqualObject nilObject [])
                    (namedObject "replicas3")) false true);
      [reflexivity..|discriminate].
  - apply (proj2 (Match_nil_operands (EqualObject (namedObject "replicas3") [])
                    nilObject) true false);
      [reflexivity..|discriminate].
Defined.

Lemma filterPasses_panics_on_empty_allow_path_witness :
  Match (EqualObject (namedObject "replicas3")
                     [AllowPaths [[]]; IgnorePaths [["metadata"; "uid"]]])
        (namedObject "replicas5") = Panic IndexOutOfRange.
Proof.
  apply (proj2 (@filterPasses_panics_on_empty_allow_path fixture)
           (namedObject "replicas3") (namedObject "replicas5")
           "replicas3" "replicas5" "replicas5" replicasDelta);
    reflexivity.
Defined.

Lemma removePath_by_length_witness :
  removePath {[ "metadata" := VObject {[ "uid" := VString "xyz" ]} ]}
             ["metadata"; "uid"] = ∅ ∧
  removePath {[ "metadata" := VString "xyz" ]} ["metadata"; "uid"] =
    {[ "metadata" := VString "xyz" ]}.
Proof.
  split.
  - etrans; [|apply (delete_singleton_eq "metadata")].
    apply (proj2 (proj2 (proj2 (proj2 (proj2 (removePath_by_length _)))))
             "metadata" "uid" (VString "xyz")).
    reflexivity.
  - apply (proj1 (proj2 (proj2 (removePath_by_length _)))).
    intros nestedMap. rewrite lookup_singleton_eq. discriminate.
Defined.

Lemma removePaths_order_independent_witness :
  removePaths {[ "a" := VNull; "b" := VObject {[ "c" := VNull ]} ]}
              [["a"]; ["b"; "c"]] =
  removePaths {[ "a" := VNull; "b" := VObject {[ "c" := VNull ]} ]}
              [["b"; "c"]; ["a"]].
Proof. apply removePaths_order_independent. apply perm_swap. Defined.

Lemma wildcard_fast_path_witness :
  (∃ d', filterDiffMap {[ "*" := VNull; "a" := VNull; "c" := VNull ]}
                       [["*"]; ["a"]] = Return d' ∧
         ∀ k, is_Some (d' !! k) → headedBy k [["*"]; ["a"]]) ∧
  (∃ d', filterDiffMap {[ "a" := VObject {[ "p" := VNull ]}; "c" := VNull ]}
                       [["a"; "*"]; ["b"]] = Return d' ∧
         d' !! "a" = Some (VObject {[ "p" := VNull ]})).
Proof.
  split.
  - apply (proj1 (proj2 (proj2 (proj2 wildcard_fast_path)))).
    + repeat constructor; discriminate.
    + simpl. lia.
  - apply (proj2 (proj2 (proj2 (proj2 wildcard_fast_path)))).
    + repeat constructor; discriminate.
    + simpl. lia.
    + reflexivity.
    + intros Heq. apply (f_equal size) in Heq. vm_compute in Heq. discriminate.
    + by exists [].
Defined.


(** * More of the matcher *)

(** ** Options *)

Lemma ApplyOptions_paths o opts :
  ApplyOptions o opts =
    {| ignorePaths := ignorePaths o ++ ignoredBy opts;
       allowPaths := allowPaths o ++ allowedBy opts |}.
Proof.
  revert o. induction opts as [|opt opts IH]; intros o.
  { destruct o. unfold ignoredBy, allowedBy. simpl. by rewrite !app_nil_r. }
  change (ApplyOptions o (opt :: opts))
    with (ApplyOptions (ApplyToMatcher opt o) opts).
  rewrite IH. destruct opt; unfold ignoredBy, allowedBy; simpl;
    by rewrite <- !app_assoc.
Qed.

(** X1: applying a list of options appends, to the ignore-list and to the
    allow-list the options start from, the paths of the ignore options
    and of the allow options, each in the order given; nothing is
    dropped, merged or checked. Applying two lists one after the other is
    applying their concatenation. *)
Theorem ApplyOptions_appends o opts opts' :
  ApplyOptions o opts =
    {| ignorePaths := ignorePaths o ++ ignoredBy opts;
       allowPaths := allowPaths o ++ allowedBy opts |} ∧
  ApplyOptions (ApplyOptions o opts) opts' = ApplyOptions o (opts ++ opts').
Proof.
  split; [apply ApplyOptions_paths|].
  unfold ApplyOptions. by rewrite fold_left_app.
Qed.

Section MoreOfMatch.
Context `{Collaborators}.

(** X2: the matcher built from a list of options holds the object, no
    diff, the ignore paths of the options, and their allow paths, or the
    wildcard list when the options bring no allow path at all (no allow
    option, or only empty ones). *)
Theorem EqualObject_options orig opts :
  original (EqualObject orig opts) = orig ∧
  diff (EqualObject orig opts) = "" ∧
  ignorePaths (options (EqualObject orig opts)) = ignoredBy opts ∧
  allowPaths (options (EqualObject orig opts)) =
    match allowedBy opts with
    | [] => [["*"]]
    | _ :: _ => allowedBy opts
    end.
Proof.
  unfold EqualObject. rewrite ApplyOptions_paths. simpl.
  split; [done|]. split; [done|].
  destruct (allowedBy opts); simpl; done.
Qed.

(** X3: on two non-nil operands, a failure of a collaborator ends the
    call with [(false, err)] and an empty stored diff. The error of
    serializing the original comes first, then that of the candidate,
    then that of the merge patch, each as it is; a diff that does not
    decode, or a filtered map that does not encode, comes wrapped. When
    the diff does not decode the allow-list is not looked at. *)
Theorem Match_propagates_errors m a :
  reflectIsNil a = Return false →
  reflectIsNil (original m) = Return false →
  (∀ e, jsonMarshal (original m) = Err e →
        Match m a = Return (setDiff m "", (false, Some e))) ∧
  (∀ oj e, jsonMarshal (original m) = Ok oj → jsonMarshal a = Err e →
           Match m a = Return (setDiff m "", (false, Some e))) ∧
  (∀ oj aj e,
     jsonMarshal (original m) = Ok oj → jsonMarshal a = Ok aj →
     CreateMergePatch oj aj = Err e →
     Match m a = Return (setDiff m "", (false, Some e))) ∧
  (∀ oj aj dj e,
     jsonMarshal (original m) = Ok oj → jsonMarshal a = Ok aj →
     CreateMergePatch oj aj = Ok dj → jsonUnmarshal dj = Err e →
     Match m a =
       Return (setDiff m "",
               (false, Some (ErrWrap e "failed to unmarshal merge diff")))) ∧
  (∀ oj aj dj d d' e,
     jsonMarshal (original m) = Ok oj → jsonMarshal a = Ok aj →
     CreateMergePatch oj aj = Ok dj → jsonUnmarshal dj = Ok d →
     filterPasses d (allowPaths (options m)) (ignorePaths (options m)) =
       Return d' →
     marshalMap d' = Err e →
     Match m a =
       Return (setDiff m "",
               (false, Some (ErrWrap e "failed to marshal merge diff")))).
Proof.
  intros Ha Ho. unfold Match, calculateDiff, filterDiff. rewrite Ha, Ho. simpl.
  repeat split.
  - by intros e ->.
  - by intros oj e -> ->.
  - by intros oj aj e -> -> ->.
  - by intros oj aj dj e -> -> -> ->.
  - intros oj aj dj d d' e -> -> -> -> -> Hm. simpl. by rewrite Hm.
Qed.

(** X4: whatever [Match] returns, the matcher still holds the same
    object and options, success never comes with an error, and a success
    on a non-nil candidate leaves [{}] as the stored diff. *)
Theorem Match_result_shape m a m' success err :
  Match m a = Return (m', (success, err)) →
  original m' = original m ∧
  options m' = options m ∧
  (success = true → err = None) ∧
  (success = true → reflectIsNil a = Return false → diff m' = "{}").
Proof.
  unfold Match.
  destruct (reflectIsNil a) as [an|]; [|done]. simpl.
  destruct (reflectIsNil (original m)) as [on|]; [|done]. simpl.
  destruct an, on; simpl; try (intros [= <- <- <-]; by repeat split).
  destruct (calculateDiff m a) as [[d|e]|]; simpl; [| |done].
  - intros [= <- <- <-]. split; [done|]. split; [done|]. split; [done|].
    intros Hs _. simpl. by apply eqb_true in Hs.
  - intros [= <- <- <-]. by repeat split.
Qed.

End MoreOfMatch.

(** ** The allow pass *)

Lemma filterDiffMap_nil d : filterDiffMap d [] = Return ∅.
Proof.
  destruct (filterDiffMap_lookup d []) as (d' & -> & Hl); [by constructor|done|].
  f_equal. apply map_eq. intros k. rewrite lookup_empty. specialize (Hl k).
  destruct (d !! k) as [m|]; [|done].
  rewrite entryResult_wf, decide_False in Hl by (by constructor || by inversion 1).
  congruence.
Qed.

(** X5: an empty allow-list, which [EqualObject] never passes on, allows
    nothing: the allow pass empties the delta, and both passes together
    return the empty map whatever the ignore-list. *)
Theorem filterDiffMap_empty_allow d ignore :
  filterDiffMap d [] = Return ∅ ∧ filterPasses d [] ignore = Return ∅.
Proof.
  split; [apply filterDiffMap_nil|].
  unfold filterPasses. rewrite filterDiffMap_nil. simpl. f_equal.
  induction ignore as [|p ignore IH]; [done|].
  by rewrite removePaths_cons, removePath_empty.
Qed.

(** X6: under an allowed key the allow pass leaves the value as it is
    when it is no nested map, or when no allow path goes deeper than the
    key; otherwise it filters the nested map by the tails of the deeper
    paths and drops the key if nothing is left, so a map it has filtered
    never stays behind empty. *)
Theorem allow_pass_under_allowed_key d allow :
  wellFormed allow →
  ¬ wildcardList allow →
  ∃ d', filterDiffMap d allow = Return d' ∧
        ∀ k m, d !! k = Some m → headedBy k allow →
          ((∀ nestedMap, m ≠ VObject nestedMap) → d' !! k = Some m) ∧
          (nestedOf k allow = [] → d' !! k = Some m) ∧
          (∀ nestedMap,
             m = VObject nestedMap → nestedOf k allow ≠ [] →
             ∃ nestedMap',
               filterDiffMap nestedMap (nestedOf k allow) = Return nestedMap' ∧
               d' !! k = (if Nat.eqb (size nestedMap') 0 then None
                          else Some (VObject nestedMap')) ∧
               d' !! k ≠ Some (VObject ∅)).
Proof.
  intros Hwf Hnw. pose proof (isWildcard_false allow Hwf Hnw) as Hw.
  destruct (filterDiffMap_lookup d allow Hwf Hw) as (d' & Hd' & Hl).
  exists d'. split; [done|]. intros k m Hk Hh.
  specialize (Hl k). rewrite Hk, entryResult_wf, decide_True in Hl by done.
  split; [|split].
  - intros Hno. destruct m; congruence.
  - intros Hnil. rewrite Hnil in Hl. destruct m; simpl in Hl; congruence.
  - intros n -> Hne.
    destruct (filterDiffMap_total (nestedOf k allow) n) as [n' Hn'];
      [apply nestedOf_wf|].
    exists n'. split; [done|].
    destruct (nestedOf k allow); [done|]. simpl in Hl.
    rewrite Hn' in Hl. simpl in Hl. injection Hl as Hl.
    split; [done|]. rewrite <- Hl.
    destruct (Nat.eqb (size n') 0) eqn:E; [done|].
    intros [= ->]. by rewrite map_size_empty in E.
Qed.

Lemma filterDiffMap_idemp_bounded n : ∀ allow d d',
  wellFormed allow →
  Forall (λ p : path, (length p ≤ n)%nat) allow →
  filterDiffMap d allow = Return d' →
  filterDiffMap d' allow = Return d'.
Proof.
  induction n as [|n IH]; intros allow d d' Hwf Hlen Hd.
  - destruct allow as [|p rest].
    + rewrite filterDiffMap_nil in Hd. injection Hd as <-.
      apply filterDiffMap_nil.
    + apply Forall_cons in Hwf as [Hp _]. apply Forall_cons in Hlen as [Hl _].
      destruct p; [done|simpl in Hl; lia].
  - destruct (isWildcard allow) as [[]|] eqn:Hw.
    + rewrite filterDiffMap_wildcard in Hd by done. injection Hd as <-.
      by apply filterDiffMap_wildcard.
    + pose proof (filterDiffMap_steps_inv d allow d' Hw Hd) as Hl.
      destruct (filterDiffMap_lookup d' allow Hwf Hw) as (d'' & Hd'' & Hl').
      rewrite Hd''. f_equal. apply map_eq. intros k.
      specialize (Hl k). specialize (Hl' k).
      destruct (d' !! k) as [m'|] eqn:Hk'; [|done].
      assert (entryResult k m' allow = Return (Some m')) as Hgoal;
        [|congruence].
      clear Hl' Hd''.
      destruct (d !! k) as [m|] eqn:Hk; [|done].
      rewrite entryResult_wf in Hl by done. rewrite entryResult_wf by done.
      case_decide; [|done].
      destruct m; try (by injection Hl as <-).
      destruct (Nat.eqb (length (nestedOf k allow)) 0) eqn:E.
      { injection Hl as <-. by rewrite ?E. }
      destruct (filterDiffMap m (nestedOf k allow)) as [n1|] eqn:Hn1; [|done].
      simpl in Hl. destruct (Nat.eqb (size n1) 0) eqn:E1; [done|].
      injection Hl as <-. rewrite ?E.
      rewrite (IH (nestedOf k allow) m n1); [simpl; by rewrite E1|apply nestedOf_wf| |done].
      apply Forall_forall. intros t Ht. apply elem_of_nestedOf in Ht as [_ Ht].
      rewrite Forall_forall in Hlen. specialize (Hlen _ Ht). simpl in Hlen. lia.
    + unfold filterDiffMap, filterDiffMapWith in Hd. by rewrite Hw in Hd.
Qed.

(** X7: the allow pass is idempotent: run again with the same
    allow-list on its own result, it returns that result. *)
Theorem filterDiffMap_idempotent d allow d' :
  wellFormed allow →
  filterDiffMap d allow = Return d' →
  filterDiffMap d' allow = Return d'.
Proof.
  intros Hwf. apply (filterDiffMap_idemp_bounded (length (concat allow))); [done|].
  clear. induction allow as [|p rest IH]; [done|].
  simpl. rewrite length_app. constructor; [lia|].
  eapply Forall_impl; [exact IH|]. simpl. intros. lia.
Qed.

Lemma isAllowed_panics k allow :
  [] ∈ allow → ¬ headedBy k allow → isAllowed k allow = Panic IndexOutOfRange.
Proof.
  induction allow as [|p rest IH]; intros Hin Hh; [by apply elem_of_nil in Hin|].
  destruct p as [|s tl]; [done|]. simpl.
  destruct (String.eqb k s) eqn:E.
  - apply eqb_true in E as ->. exfalso. apply Hh. by left.
  - apply IH.
    + by apply elem_of_cons in Hin as [|].
    + intros Hr. apply Hh. by right.
Qed.

Lemma collectNested_panics k allow acc :
  [] ∈ allow → collectNested k allow acc = Panic IndexOutOfRange.
Proof.
  revert acc. induction allow as [|p rest IH]; intros acc Hin;
    [by apply elem_of_nil in Hin|].
  destruct p as [|s tl]; [done|]. simpl.
  apply elem_of_cons in Hin as [|Hin]; [done|].
  destruct (_ && _); by apply IH.
Qed.

Lemma isAllowed_false_inv k allow :
  isAllowed k allow = Return false → [] ∉ allow.
Proof.
  induction allow as [|p rest IH]; simpl; intros Ha Hin;
    [by apply elem_of_nil in Hin|].
  destruct p as [|s tl]; [done|]. simpl in Ha.
  destruct (String.eqb k s); [done|].
  apply elem_of_cons in Hin as [|Hin]; [done|]. by apply IH.
Qed.

Lemma isAllowed_outcome k allow :
  isAllowed k allow = Return true ∨ isAllowed k allow = Return false ∨
  isAllowed k allow = Panic IndexOutOfRange.
Proof.
  induction allow as [|p rest IH]; simpl; [by eauto|].
  destruct p as [|s tl]; simpl; [by eauto|].
  destruct (String.eqb k s); by eauto.
Qed.

(** X8: where a zero-length allow path makes the allow pass panic. With
    such a path in the allow-list, the pass does not return as soon as
    the delta has a key that no allow path starts with, or a key that
    holds a nested map. *)
Theorem filterDiffMap_panics_with_empty_path d allow k m :
  [] ∈ allow →
  d !! k = Some m →
  ¬ headedBy k allow ∨ (∃ nestedMap, m = VObject nestedMap) →
  ∃ p, filterDiffMap d allow = Panic p.
Proof.
  intros Hin Hk Hcase.
  destruct (filterDiffMap d allow) as [d'|p] eqn:Hd; [exfalso|by eauto].
  destruct (isWildcard allow) as [[]|] eqn:Hw.
  - apply isWildcard_true_iff in Hw as [rest ->].
    by apply list_elem_of_singleton in Hin.
  - pose proof (filterDiffMap_steps_inv d allow d' Hw Hd k) as Hl.
    rewrite Hk in Hl. unfold entryResult in Hl.
    destruct Hcase as [Hh|[n ->]].
    + by rewrite isAllowed_panics in Hl.
    + destruct (isAllowed_outcome k allow) as [Ha|[Ha|Ha]];
        rewrite Ha in Hl; simpl in Hl; [|  |done].
      * by rewrite collectNested_panics in Hl.
      * by apply isAllowed_false_inv in Ha.
  - unfold filterDiffMap, filterDiffMapWith in Hd. by rewrite Hw in Hd.
Qed.

(** ** The ignore pass *)

Lemma walk_cons d k q :
  walk d (k :: q) =
    match q with
    | [] => d !! k
    | _ :: _ =>
        match d !! k with
        | Some (VObject nestedMap) => walk nestedMap q
        | _ => None
        end
    end.
Proof. by destruct q. Qed.

(** What a path finds depends on the key of its first segment only. *)
Lemma walk_local (d1 d2 : gmap string value) k q :
  d1 !! k = d2 !! k → walk d1 (k :: q) = walk d2 (k :: q).
Proof. intros Heq. rewrite !walk_cons. by rewrite Heq. Qed.

Lemma walk_absent (d : gmap string value) k q :
  d !! k = None → walk d (k :: q) = None.
Proof. intros Hk. rewrite walk_cons, Hk. by destruct q. Qed.

Lemma leftOf_refl v : leftOf v v.
Proof. destruct v; simpl; by eauto. Qed.

Lemma leftOf_trans v1 v2 v3 : leftOf v1 v2 → leftOf v2 v3 → leftOf v1 v3.
Proof.
  destruct v1; simpl; try (intros ->; simpl; by intros ->).
  intros [n ->]. simpl. done.
Qed.

Lemma removePaths_app d l1 l2 :
  removePaths d (l1 ++ l2) = removePaths (removePaths d l1) l2.
Proof. apply fold_left_app. Qed.

(** The removed path no longer resolves. *)
Lemma removePath_gone p : ∀ d, p ≠ [] → walk (removePath d p) p = None.
Proof.
  induction p as [|k t IH]; intros d Hp; [done|].
  destruct t as [|j t].
  - by rewrite removePath_single, walk_single, lookup_delete_eq.
  - destruct (nested_or_not d k) as [[n Hn]|Hn].
    + rewrite (removePath_descend _ _ _ _ _ Hn).
      destruct (Nat.eqb _ 0).
      * apply walk_absent, lookup_delete_eq.
      * rewrite walk_descend, lookup_insert_eq. by apply IH.
    + rewrite removePath_skip by done. rewrite walk_descend.
      destruct (d !! k) as [[]|] eqn:Hd; try done. by edestruct Hn.
Qed.

(** X9: an ignored path is gone from the filtered delta whatever the
    allow-list says: after the ignore pass, and so after both passes, no
    non-empty path of the ignore-list resolves to a value. *)
Theorem ignored_paths_are_gone d ignore p :
  p ∈ ignore → p ≠ [] →
  walk (removePaths d ignore) p = None ∧
  ∀ allow d', filterPasses d allow ignore = Return d' → walk d' p = None.
Proof.
  intros Hin Hp.
  assert (∀ d0, walk (removePaths d0 ignore) p = None) as Hgone.
  { intros d0. apply list_elem_of_split in Hin as (l1 & l2 & ->).
    rewrite removePaths_app, removePaths_cons.
    rewrite <- removePaths_removePath. by apply removePath_gone. }
  split; [apply Hgone|].
  intros allow d'. unfold filterPasses.
  destruct (filterDiffMap d allow) as [d1|]; simpl; [|done].
  intros [= <-]. apply Hgone.
Qed.

Lemma apart_cons k p q : apart (k :: p) (k :: q) → apart p q.
Proof. intros [H1 H2]. split; intros Hpre; [apply H1|apply H2]; by apply prefix_cons. Qed.

(** X10: removing a path leaves every path apart from it (neither a
    prefix of the other) as it was: the same value, or none as before. *)
Theorem removePath_frame p : ∀ d q,
  apart p q → walk (removePath d p) q = walk d q.
Proof.
  induction p as [|k t IH]; intros d q Ha; [done|].
  destruct q as [|k' q]; [done|].
  destruct (decide (k' = k)) as [->|Hne].
  2:{ apply walk_local. by apply removePath_lookup_ne. }
  apply apart_cons in Ha as Ha'.
  destruct t as [|j t].
  { destruct Ha' as [Hnil _]. exfalso. apply Hnil, prefix_nil. }
  destruct q as [|j' q].
  { destruct Ha' as [_ Hnil]. exfalso. apply Hnil, prefix_nil. }
  destruct (nested_or_not d k) as [[n Hn]|Hn].
  - rewrite (removePath_descend _ _ _ _ _ Hn).
    rewrite (walk_descend d), Hn. rewrite <- (IH n (j' :: q) Ha').
    destruct (Nat.eqb (size (removePath n (j :: t))) 0) eqn:E.
    + apply size_eqb_0 in E. rewrite E.
      rewrite walk_absent by apply lookup_delete_eq.
      symmetry. rewrite walk_cons, lookup_empty. by destruct q.
    + by rewrite walk_descend, lookup_insert_eq.
  - by rewrite removePath_skip.
Qed.

Lemma removePath_leftOf p : ∀ d q v',
  walk (removePath d p) q = Some v' →
  ∃ v, walk d q = Some v ∧ leftOf v' v.
Proof.
  induction p as [|k t IH]; intros d q v' Hw.
  { exists v'. split; [done|apply leftOf_refl]. }
  destruct q as [|k' q]; [done|].
  destruct (decide (k' = k)) as [->|Hne].
  2:{ rewrite (walk_local _ d) in Hw by (by apply removePath_lookup_ne).
      exists v'. split; [done|apply leftOf_refl]. }
  destruct t as [|j t].
  { rewrite removePath_single, walk_absent in Hw by apply lookup_delete_eq.
    done. }
  destruct (nested_or_not d k) as [[n Hn]|Hn].
  - rewrite (removePath_descend _ _ _ _ _ Hn) in Hw.
    destruct (Nat.eqb (size (removePath n (j :: t))) 0).
    { by rewrite walk_absent in Hw by apply lookup_delete_eq. }
    rewrite walk_cons, lookup_insert_eq in Hw. rewrite walk_cons, Hn.
    destruct q as [|j' q].
    + injection Hw as <-. exists (VObject n). split; [done|]. simpl. by eauto.
    + by apply IH in Hw.
  - rewrite removePath_skip in Hw by done.
    exists v'. split; [done|apply leftOf_refl].
Qed.

Lemma removePaths_leftOf ignore : ∀ d q v',
  walk (removePaths d ignore) q = Some v' →
  ∃ v, walk d q = Some v ∧ leftOf v' v.
Proof.
  induction ignore as [|p ignore IH]; intros d q v' Hw.
  { exists v'. split; [done|apply leftOf_refl]. }
  rewrite removePaths_cons in Hw.
  apply IH in Hw as (v1 & Hw & Hl1).
  apply removePath_leftOf in Hw as (v & Hw & Hl).
  exists v. split; [done|]. by eapply leftOf_trans.
Qed.

Lemma removePath_noop p : ∀ d,
  (∀ q, q ≠ [] → q `prefix_of` p → walk d q ≠ Some (VObject ∅)) →
  walk d p = None →
  removePath d p = d.
Proof.
  induction p as [|k t IH]; intros d Hne Hw; [done|].
  destruct t as [|j t].
  - rewrite removePath_single. by apply delete_id.
  - destruct (nested_or_not d k) as [[n Hn]|Hn]; [|by apply removePath_skip].
    rewrite (removePath_descend _ _ _ _ _ Hn).
    rewrite walk_descend, Hn in Hw.
    rewrite (IH n); [| |done].
    + destruct (Nat.eqb (size n) 0) eqn:E; [|by apply insert_id].
      apply size_eqb_0 in E as ->. exfalso.
      apply (Hne [k]); [done|by apply prefix_cons, prefix_nil|].
      by rewrite walk_single.
    + intros q Hq Hpre.
      specialize (Hne (k :: q) ltac:(done) (prefix_cons _ _ _ Hpre)).
      rewrite walk_cons, Hn in Hne. by destruct q.
Qed.

(** X11: a path that finds nothing, with no empty map on its way, is
    removed without effect; but a path of two or more segments whose
    first segment holds an empty map deletes that key, although the path
    itself finds nothing. *)
Theorem removePath_absent_path d :
  (∀ p,
     (∀ q, q ≠ [] → q `prefix_of` p → walk d q ≠ Some (VObject ∅)) →
     walk d p = None →
     removePath d p = d) ∧
  (∀ k j t,
     d !! k = Some (VObject ∅) →
     walk d (k :: j :: t) = None ∧ removePath d (k :: j :: t) = delete k d).
Proof.
  split.
  - intros p. apply removePath_noop.
  - intros k j t Hk. split.
    + rewrite walk_descend, Hk, walk_cons, lookup_empty. by destruct t.
    + rewrite (removePath_descend _ _ _ _ _ Hk).
      by rewrite removePath_empty, map_size_empty.
Qed.

(** ** Both passes *)

Lemma collectNested_cons k s tl rest acc :
  collectNested k ((s :: tl) :: rest) acc =
    if String.eqb k s && Nat.ltb 1 (length (s :: tl))
    then collectNested k rest (acc ++ [tl])
    else collectNested k rest acc.
Proof. done. Qed.

(** The tails the second inner loop collects come from the paths of two
    or more segments. *)
Lemma collectNested_elems k allow : ∀ acc nestedPaths,
  collectNested k allow acc = Return nestedPaths →
  ∀ t, t ∈ nestedPaths →
       t ∈ acc ∨ ∃ p, p ∈ allow ∧ (1 < length p)%nat ∧ t = drop 1 p.
Proof.
  induction allow as [|p rest IH]; intros acc np Hc t Ht.
  { injection Hc as <-. by left. }
  destruct p as [|s tl]; [done|]. rewrite collectNested_cons in Hc.
  destruct (String.eqb k s && Nat.ltb 1 (length (s :: tl))) eqn:E.
  - destruct (IH _ _ Hc t Ht) as [Hacc|(p & Hp & Hlen & ->)].
    + apply elem_of_app in Hacc as [Hacc|Hnew]; [by left|].
      apply list_elem_of_singleton in Hnew as ->. right.
      exists (s :: tl). split; [by left|]. split; [|done].
      apply andb_true_iff in E as [_ E]. by apply Nat.ltb_lt in E.
    + right. exists p. split; [by right|done].
  - destruct (IH _ _ Hc t Ht) as [Hacc|(p & Hp & Hlen & ->)]; [by left|].
    right. exists p. split; [by right|done].
Qed.

Lemma filterDiffMap_leftOf_bounded n : ∀ allow d d' q v',
  Forall (λ p : path, (length p ≤ n)%nat) allow →
  filterDiffMap d allow = Return d' →
  walk d' q = Some v' →
  ∃ v, walk d q = Some v ∧ leftOf v' v.
Proof.
  induction n as [|n IH]; intros allow d d' q v' Hlen Hd Hw.
  all: destruct (isWildcard allow) as [[]|] eqn:Hwc;
    [ rewrite filterDiffMap_wildcard in Hd by done; injection Hd as <-;
      exists v'; split; [done|apply leftOf_refl]
    |
    | unfold filterDiffMap, filterDiffMapWith in Hd; by rewrite Hwc in Hd ].
  all: destruct q as [|k q]; [done|].
  all: pose proof (filterDiffMap_steps_inv d allow d' Hwc Hd k) as Hl.
  all: destruct (d !! k) as [m|] eqn:Hk; [|by rewrite walk_absent in Hw].
  all: unfold entryResult in Hl.
  all: destruct (isAllowed k allow) as [[]|]; simpl in Hl;
    [|injection Hl as Hl; by rewrite walk_absent in Hw|done].
  all: assert (d' !! k = Some m →
               ∃ v, walk d (k :: q) = Some v ∧ leftOf v' v) as Hsame
    by (intros Heq; rewrite (walk_local d' d) in Hw by congruence;
        exists v'; split; [done|apply leftOf_refl]).
  all: destruct m as [| | | | |nested]; try (injection Hl as Hl; by apply Hsame).
  all: destruct (collectNested k allow []) as [np|] eqn:Hc; simpl in Hl; [|done].
  all: destruct (Nat.eqb (length np) 0) eqn:Enp;
    [injection Hl as Hl; by apply Hsame|].
  all: destruct (filterDiffMap nested np) as [n1|] eqn:Hn1; simpl in Hl; [|done].
  all: destruct (Nat.eqb (size n1) 0);
    injection Hl as Hl; [by rewrite walk_absent in Hw|].
  all: pose proof (collectNested_elems k allow [] np Hc) as Hel.
  - destruct np as [|t np]; [done|]. exfalso.
    destruct (Hel t) as [Hnil|(p & Hp & Hlp & _)]; [by left| |].
    + by apply elem_of_nil in Hnil.
    + rewrite Forall_forall in Hlen. specialize (Hlen _ Hp). lia.
  - rewrite walk_cons in Hw. rewrite <- Hl in Hw. rewrite walk_cons, Hk.
    destruct q as [|j q].
    + injection Hw as <-. exists (VObject nested). split; [done|].
      simpl. by eauto.
    + apply (IH np nested n1); [|done|done].
      apply Forall_forall. intros t Ht.
      destruct (Hel t Ht) as [Hnil|(p & Hp & Hlp & ->)];
        [by apply elem_of_nil in Hnil|].
      rewrite Forall_forall in Hlen. specialize (Hlen _ Hp).
      rewrite length_drop. lia.
Qed.

(** X12: filtering only removes. Whatever a path finds in the filtered
    delta, it found in the raw delta: the same value when it is no nested
    map, and a nested map where it finds one. No key, scalar or list is
    added or changed by either pass. *)
Theorem filterPasses_only_removes d allow ignore d' q v' :
  filterPasses d allow ignore = Return d' →
  walk d' q = Some v' →
  ∃ v, walk d q = Some v ∧ leftOf v' v.
Proof.
  unfold filterPasses.
  destruct (filterDiffMap d allow) as [d1|] eqn:Hd1; simpl; [|done].
  intros [= <-] Hw.
  apply removePaths_leftOf in Hw as (v1 & Hw & Hl1).
  eapply (filterDiffMap_leftOf_bounded (length (concat allow))) in Hw
    as (v & Hw & Hl); [| |exact Hd1].
  - exists v. split; [done|]. by eapply leftOf_trans.
  - clear. induction allow as [|p rest IH]; [done|].
    simpl. rewrite length_app. constructor; [lia|].
    eapply Forall_impl; [exact IH|]. simpl. intros. lia.
Qed.

(** Paths under a key that is not there do nothing. *)
Lemma removePaths_fieldsUnder_absent (d : gmap string value) k fields :
  d !! k = None → removePaths d (fieldsUnder k fields) = d.
Proof.
  intros Hk. induction fields as [|f fields IH]; [done|].
  unfold fieldsUnder. rewrite fmap_cons, removePaths_cons.
  rewrite removePath_skip; [done|]. intros n. by rewrite Hk.
Qed.

Lemma filter_not_in_cons (n : gmap string value) f fields :
  filter (λ kv, kv.1 ∉ f :: fields) n = filter (λ kv, kv.1 ∉ fields) (delete f n).
Proof.
  apply map_eq. intros i. apply option_eq. intros v.
  rewrite !map_lookup_filter_Some, lookup_delete_Some. simpl.
  rewrite not_elem_of_cons. intuition congruence.
Qed.

Lemma removePaths_fieldsUnder_aux k fields : ∀ d n,
  d !! k = Some (VObject n) →
  n ≠ ∅ ∨ fields ≠ [] →
  removePaths d (fieldsUnder k fields) =
    if Nat.eqb (size (filter (λ kv, kv.1 ∉ fields) n)) 0 then delete k d
    else <[k := VObject (filter (λ kv, kv.1 ∉ fields) n)]> d.
Proof.
  induction fields as [|f fields IH]; intros d n Hk Hor.
  { destruct Hor as [Hn|]; [|done]. rewrite map_filter_id by (intros; apply not_elem_of_nil).
    destruct (Nat.eqb (size n) 0) eqn:E; [by apply size_eqb_0 in E|].
    simpl. by rewrite insert_id. }
  unfold fieldsUnder. rewrite fmap_cons, removePaths_cons.
  fold (fieldsUnder k fields).
  rewrite (removePath_descend _ _ _ _ _ Hk), removePath_single.
  rewrite filter_not_in_cons.
  destruct (Nat.eqb (size (delete f n)) 0) eqn:E.
  - apply size_eqb_0 in E. rewrite E, map_filter_empty, map_size_empty. simpl.
    apply removePaths_fieldsUnder_absent, lookup_delete_eq.
  - rewrite (IH _ (delete f n)).
    + destruct (Nat.eqb _ 0); by rewrite ?delete_insert_eq, ?insert_insert_eq.
    + apply lookup_insert_eq.
    + left. intros Heq. rewrite Heq, map_size_empty in E. done.
Qed.

(** X13: ignoring a non-empty list of fields of one nested map removes
    exactly those fields, in any number and order of mentions, and drops
    the key of the nested map when no other field is left in it. *)
Theorem removePaths_fieldsUnder d k n fields :
  d !! k = Some (VObject n) →
  fields ≠ [] →
  removePaths d (fieldsUnder k fields) =
    if Nat.eqb (size (filter (λ kv, kv.1 ∉ fields) n)) 0 then delete k d
    else <[k := VObject (filter (λ kv, kv.1 ∉ fields) n)]> d.
Proof. intros Hk Hf. apply removePaths_fieldsUnder_aux; by eauto. Qed.

Section Preset.
Context `{Collaborators}.

(** X14: with [IgnoreAutogeneratedMetadata] as the only option, two
    non-nil objects whose merge patch touches nothing but autogenerated
    metadata fields match: the whole [metadata] entry is filtered out and
    [Match] succeeds without error. *)
Theorem Match_ignores_autogenerated_metadata o a oj aj dj n :
  reflectIsNil a = Return false →
  reflectIsNil o = Return false →
  jsonMarshal o = Ok oj →
  jsonMarshal a = Ok aj →
  CreateMergePatch oj aj = Ok dj →
  jsonUnmarshal dj = Ok {[ "metadata" := VObject n ]} →
  (∀ f, is_Some (n !! f) → f ∈ autogeneratedFields) →
  Match (EqualObject o [IgnoreAutogeneratedMetadata]) a =
    Return (setDiff (EqualObject o [IgnoreAutogeneratedMetadata]) "{}",
            (true, None)).
Proof.
  intros Ha Ho Hoj Haj Hdj Hd Hn.
  rewrite (Match_decoded _ a oj aj dj _) by done.
  assert (filterPasses {[ "metadata" := VObject n ]}
            (allowPaths (options (EqualObject o [IgnoreAutogeneratedMetadata])))
            (ignorePaths (options (EqualObject o [IgnoreAutogeneratedMetadata])))
          = Return ∅) as ->.
  { change (Return (removePaths {[ "metadata" := VObject n ]}
                      (fieldsUnder "metadata" autogeneratedFields)) =
            Return (∅ : gmap string value)).
    f_equal. rewrite (removePaths_fieldsUnder_aux _ _ _ n);
      [|apply lookup_singleton_eq|by right].
    assert (filter (λ kv : string * value, kv.1 ∉ autogeneratedFields) n = ∅)
      as ->.
    { apply map_empty. intros f. apply map_lookup_filter_None. right.
      intros v Hv Hnot. apply Hnot, Hn. by eauto. }
    rewrite map_size_empty. simpl. apply delete_singleton_eq. }
  simpl.
  change (marshalMembers (map_to_list (marshalValue <$> ∅)))
    with (marshalMap ∅).
  by rewrite (proj2 (marshalMap_braces ∅)).
Qed.

End Preset.


(** ** Composition *)

Lemma removePaths_empty ignore : removePaths ∅ ignore = ∅.
Proof.
  induction ignore as [|p ignore IH]; [done|].
  by rewrite removePaths_cons, removePath_empty.
Qed.

(** X15: a delta that lies wholly outside the allow-list is filtered to
    nothing: when no top-level key of the delta is the first segment of
    an allow path, both passes return the empty map. *)
Theorem filterPasses_outside_allow_list d allow ignore :
  wellFormed allow →
  ¬ wildcardList allow →
  (∀ k, is_Some (d !! k) → ¬ headedBy k allow) →
  filterPasses d allow ignore = Return ∅.
Proof.
  intros Hwf Hnw Hout. unfold filterPasses.
  destruct (filterDiffMap_total allow d Hwf) as [d' Hd']. rewrite Hd'. simpl.
  assert (d' = ∅) as ->; [|by rewrite removePaths_empty].
  apply map_eq. intros k. rewrite lookup_empty.
  destruct (d !! k) as [m|] eqn:Hk.
  - destruct (filterDiffMap_drops d allow k) as (d'' & Hd'' & Hnone);
      [done|by apply isWildcard_false|by apply Hout; eauto|].
    congruence.
  - pose proof (filterDiffMap_steps_inv d allow d'
                  (isWildcard_false allow Hwf Hnw) Hd' k) as Hl.
    by rewrite Hk in Hl.
Qed.

Lemma nestedOf_Permutation k allow allow' :
  allow ≡ₚ allow' → nestedOf k allow ≡ₚ nestedOf k allow'.
Proof. intros Hp. unfold nestedOf. by rewrite Hp. Qed.

Lemma filterDiffMap_Permutation_bounded n : ∀ allow allow' d,
  allow ≡ₚ allow' →
  wellFormed allow →
  Forall (λ p : path, (length p ≤ n)%nat) allow →
  filterDiffMap d allow = filterDiffMap d allow'.
Proof.
  induction n as [|n IH]; intros allow allow' d Hp Hwf Hlen.
  - destruct allow as [|p rest].
    + apply Permutation_nil_l in Hp as <-. done.
    + apply Forall_cons in Hwf as [Hne _]. apply Forall_cons in Hlen as [Hl _].
      destruct p; [done|simpl in Hl; lia].
  - assert (wellFormed allow') as Hwf' by (unfold wellFormed; by rewrite <- Hp).
    destruct (isWildcard allow) as [[]|] eqn:Hw;
      [|assert (¬ wildcardList allow) as Hnw
          by (intros Hyes; apply isWildcard_true_iff in Hyes; congruence)
       |by rewrite isWildcard_wf in Hw].
    { apply isWildcard_true_iff in Hw as [rest ->].
      by apply Permutation_singleton_l in Hp as <-. }
    assert (¬ wildcardList allow') as Hnw'.
    { intros [rest ->]. apply Hnw. exists rest.
      by apply Permutation_singleton_r in Hp. }
    destruct (filterDiffMap_lookup d allow Hwf (isWildcard_false _ Hwf Hnw))
      as (d1 & -> & Hl1).
    destruct (filterDiffMap_lookup d allow' Hwf' (isWildcard_false _ Hwf' Hnw'))
      as (d2 & -> & Hl2).
    f_equal. apply map_eq. intros k. specialize (Hl1 k). specialize (Hl2 k).
    destruct (d !! k) as [m|]; [|congruence].
    assert (entryResult k m allow = entryResult k m allow') as Heq;
      [|congruence].
    rewrite !entryResult_wf by done.
    assert (headedBy k allow ↔ headedBy k allow') as Hh
      by (unfold headedBy; by rewrite Hp).
    repeat case_decide; try tauto; [].
    destruct m; try done.
    pose proof (nestedOf_Permutation k _ _ Hp) as Hnp.
    rewrite <- (Permutation_length Hnp).
    destruct (Nat.eqb (length (nestedOf k allow)) 0); [done|].
    rewrite (IH (nestedOf k allow) (nestedOf k allow') m Hnp); [done| |].
    + apply nestedOf_wf.
    + apply Forall_forall. intros t Ht. apply elem_of_nestedOf in Ht as [_ Ht].
      rewrite Forall_forall in Hlen. specialize (Hlen _ Ht). simpl in Hlen. lia.
Qed.

(** X16: the allow pass does not depend on the order of the allow paths,
    as long as each of them has a first segment. *)
Theorem filterDiffMap_order_independent d allow allow' :
  allow ≡ₚ allow' →
  wellFormed allow →
  filterDiffMap d allow = filterDiffMap d allow'.
Proof.
  intros Hp Hwf.
  apply (filterDiffMap_Permutation_bounded (length (concat allow))); [done..|].
  clear. induction allow as [|p rest IH]; [done|].
  simpl. rewrite length_app. constructor; [lia|].
  eapply Forall_impl; [exact IH|]. simpl. intros. lia.
Qed.

Lemma walk_app_None p : ∀ d r,
  p ≠ [] → walk d p = None → walk d (p ++ r)%list = None.
Proof.
  induction p as [|k t IH]; intros d r Hp Hw; [done|].
  destruct t as [|j t].
  - rewrite walk_single in Hw. by apply walk_absent.
  - rewrite walk_descend in Hw.
    change ((k :: j :: t) ++ r)%list with (k :: j :: (t ++ r)%list).
    rewrite walk_descend.
    destruct (d !! k) as [[]|]; try done. by apply (IH _ r).
Qed.

(** X17: once a path is ignored, ignoring a longer path under it as well
    changes nothing. *)
Theorem removePath_deeper_is_redundant d p r :
  p ≠ [] → removePath (removePath d p) (p ++ r)%list = removePath d p.
Proof.
  intros Hp. apply removePath_noop.
  - intros q Hq Hpre.
    destruct (prefix_weak_total q p (p ++ r)%list) as [Hqp|Hpq];
      [done|by apply prefix_app_r|..].
    + by apply removePath_no_remnant.
    + destruct Hpq as [r' ->]. rewrite walk_app_None; [done..|].
      by apply removePath_gone.
  - apply walk_app_None; [done|]. by apply removePath_gone.
Qed.

Section NoPanic.
Context `{Collaborators}.

(** C4, at the failing input: [Match] runs the nil check of the candidate
    and then that of the original before anything else, so when either
    check panics, as [reflect.ValueOf(x).IsNil()] does on an interface
    that holds no value (the literal nil), the call panics with it
    instead of returning [(true, nil)] or [(false, err)]. *)
Theorem Match_panics_with_the_nil_check m actual p :
  (reflectIsNil actual = Panic p → Match m actual = Panic p) ∧
  (∀ actualIsNil,
     reflectIsNil actual = Return actualIsNil →
     reflectIsNil (original m) = Panic p →
     Match m actual = Panic p).
Proof.
  split.
  - intros Ha. unfold Match. by rewrite Ha.
  - intros b Ha Ho. unfold Match. by rewrite Ha, Ho.
Qed.

(** X18: [Match] returns, with a verdict and possibly an error, whenever
    the nil checks on both operands do and every allow path of the
    matcher has a first segment; a matcher built by [EqualObject] from
    options whose allow paths all have one is such a matcher. *)
Theorem Match_returns m a actualIsNil originalIsNil :
  reflectIsNil a = Return actualIsNil →
  reflectIsNil (original m) = Return originalIsNil →
  wellFormed (allowPaths (options m)) →
  ∃ m' success err, Match m a = Return (m', (success, err)).
Proof.
  intros Ha Ho Hwf. unfold Match. rewrite Ha, Ho. simpl.
  destruct (actualIsNil && originalIsNil); [by eauto|].
  destruct (actualIsNil || originalIsNil); [by eauto|].
  unfold calculateDiff, filterDiff.
  destruct (jsonMarshal (original m)); simpl; [|by eauto].
  destruct (jsonMarshal a); simpl; [|by eauto].
  destruct (CreateMergePatch _ _); simpl; [|by eauto].
  destruct (jsonUnmarshal _) as [d|]; simpl; [|by eauto].
  destruct (filterPasses_returns d (allowPaths (options m))
              (ignorePaths (options m)) Hwf) as [d' ->]. simpl.
  destruct (marshalMap d'); simpl; by eauto.
Qed.

Lemma EqualObject_wellFormed orig opts :
  wellFormed (allowedBy opts) →
  wellFormed (allowPaths (options (EqualObject orig opts))).
Proof.
  intros Hwf. unfold EqualObject. rewrite ApplyOptions_paths. simpl.
  destruct (allowedBy opts); [|done]. by repeat constructor.
Qed.

End NoPanic.

(** ** The further theorems at concrete inputs *)

Lemma Match_propagates_errors_witness :
  Match (EqualObject (namedObject "replicas3") [AllowPaths [[]]])
        (namedObject "not a patch") =
    Return (setDiff (EqualObject (namedObject "replicas3") [AllowPaths [[]]])
                    "",
            (false,
             Some (ErrWrap (ErrExternal "invalid character")
                           "failed to unmarshal merge diff"))).
Proof.
  apply (proj1 (proj2 (proj2 (proj2
           (@Match_propagates_errors fixture
              (EqualObject (namedObject "replicas3") [AllowPaths [[]]])
              (namedObject "not a patch") eq_refl eq_refl))))
           "replicas3" "not a patch" "not a patch");
    reflexivity.
Defined.

Lemma Match_result_shape_witness :
  original (setDiff (EqualObject (namedObject "replicas3") []) "{}") =
    namedObject "replicas3" ∧
  options (setDiff (EqualObject (namedObject "replicas3") []) "{}") =
    options (EqualObject (namedObject "replicas3") []) ∧
  (true = true → @None error = None) ∧
  (true = true →
   @reflectIsNil fixture (namedObject "replicas3") = Return false →
   diff (setDiff (EqualObject (namedObject "replicas3") []) "{}") = "{}").
Proof.
  apply (@Match_result_shape fixture
           (EqualObject (namedObject "replicas3") [])
           (namedObject "replicas3")).
  reflexivity.
Defined.

Lemma allow_pass_under_allowed_key_witness :
  ∃ d', filterDiffMap
          {[ "a" := VObject {[ "p" := VNull ]}; "b" := VNull ]}
          [["a"; "q"]; ["b"; "r"]] = Return d' ∧
        ∀ k m,
          ({[ "a" := VObject {[ "p" := VNull ]}; "b" := VNull ]}
             : gmap string value) !! k = Some m →
          headedBy k [["a"; "q"]; ["b"; "r"]] →
          ((∀ nestedMap, m ≠ VObject nestedMap) → d' !! k = Some m) ∧
          (nestedOf k [["a"; "q"]; ["b"; "r"]] = [] → d' !! k = Some m) ∧
          (∀ nestedMap,
             m = VObject nestedMap →
             nestedOf k [["a"; "q"]; ["b"; "r"]] ≠ [] →
             ∃ nestedMap',
               filterDiffMap nestedMap (nestedOf k [["a"; "q"]; ["b"; "r"]]) =
                 Return nestedMap' ∧
               d' !! k = (if Nat.eqb (size nestedMap') 0 then None
                          else Some (VObject nestedMap')) ∧
               d' !! k ≠ Some (VObject ∅)).
Proof.
  apply allow_pass_under_allowed_key.
  - repeat constructor; discriminate.
  - intros [rest Heq]. discriminate.
Defined.

Lemma filterDiffMap_idempotent_witness :
  filterDiffMap {[ "x" := VObject {[ "y" := VNull ]} ]} [["x"]; ["x"; "y"]] =
    Return {[ "x" := VObject {[ "y" := VNull ]} ]}.
Proof.
  apply (filterDiffMap_idempotent
           {[ "x" := VObject {[ "y" := VNull; "z" := VBool true ]} ]}).
  - repeat constructor; discriminate.
  - vm_compute. reflexivity.
Defined.

Lemma filterDiffMap_panics_with_empty_path_witness :
  ∃ p, filterDiffMap {[ "spec" := VNull ]} [["metadata"]; []] = Panic p.
Proof.
  apply (filterDiffMap_panics_with_empty_path _ _ "spec" VNull).
  - right. by left.
  - reflexivity.
  - left. intros Hex. apply Exists_cons in Hex as [[=]|Hex].
    apply Exists_cons in Hex as [[=]|Hex]. inversion Hex.
Defined.

Lemma ignored_paths_are_gone_witness :
  walk (removePaths uidDelta [["metadata"; "uid"]; ["spec"]])
       ["metadata"; "uid"] = None ∧
  ∀ allow d',
    filterPasses uidDelta allow [["metadata"; "uid"]; ["spec"]] = Return d' →
    walk d' ["metadata"; "uid"] = None.
Proof.
  apply ignored_paths_are_gone.
  - by left.
  - discriminate.
Defined.

Lemma removePath_frame_witness :
  walk (removePath uidDelta ["metadata"; "uid"])
       ["metadata"; "resourceVersion"] =
  walk uidDelta ["metadata"; "resourceVersion"].
Proof.
  apply removePath_frame. split; intros [rest Heq]; discriminate.
Defined.

Lemma removePath_absent_path_witness :
  removePath uidDelta ["metadata"; "name"] = uidDelta ∧
  removePath {[ "metadata" := VObject ∅ ]} ["metadata"; "name"] = ∅.
Proof.
  split.
  - apply (proj1 (removePath_absent_path uidDelta)); [|reflexivity].
    intros q Hq [rest Heq].
    destruct q as [|a [|b [|c q]]]; [done|..]; simpl in Heq.
    + injection Heq as <- _. vm_compute. discriminate.
    + injection Heq as <- <- _. vm_compute. discriminate.
    + discriminate.
  - etrans; [|apply (delete_singleton_eq "metadata")].
    apply (proj2 (removePath_absent_path _)). apply lookup_singleton_eq.
Defined.

Lemma filterPasses_only_removes_witness :
  ∃ v, walk uidDelta ["metadata"; "resourceVersion"] = Some v ∧
       leftOf (VString "2") v.
Proof.
  apply (filterPasses_only_removes uidDelta [["metadata"]]
           [["metadata"; "uid"]]
           {[ "metadata" := VObject {[ "resourceVersion" := VString "2" ]} ]});
    vm_compute; reflexivity.
Defined.

Lemma removePaths_fieldsUnder_witness :
  removePaths uidDelta (fieldsUnder "metadata" ["uid"; "selfLink"; "uid"]) =
    {[ "metadata" := VObject {[ "resourceVersion" := VString "2" ]} ]}.
Proof.
  etrans.
  - apply (removePaths_fieldsUnder uidDelta "metadata"
             {[ "uid" := VString "xyz"; "resourceVersion" := VString "2" ]}).
    + reflexivity.
    + discriminate.
  - vm_compute. reflexivity.
Defined.

Lemma Match_ignores_autogenerated_metadata_witness :
  @Match uidFixture
    (@EqualObject uidFixture (Named "uid-abc") [IgnoreAutogeneratedMetadata])
    (Named "uid-xyz") =
  Return (@setDiff uidFixture
            (@EqualObject uidFixture (Named "uid-abc")
                          [IgnoreAutogeneratedMetadata]) "{}",
          (true, None)).
Proof.
  apply (@Match_ignores_autogenerated_metadata uidFixture
           (Named "uid-abc") (Named "uid-xyz") "uid-abc" "uid-xyz" "uid-xyz"
           {[ "uid" := VString "xyz"; "resourceVersion" := VString "2" ]});
    try reflexivity.
  intros f [v Hv].
  destruct (decide (f = "uid")) as [->|Hne1]; [by left|].
  destruct (decide (f = "resourceVersion")) as [->|Hne2];
    [do 3 right; by left|].
  rewrite lookup_insert_ne, lookup_singleton_ne in Hv by done.
  discriminate.
Defined.

Lemma filterPasses_outside_allow_list_witness :
  filterPasses replicasDelta [["status"]; ["metadata"; "name"]]
               [["spec"; "paused"]] = Return ∅.
Proof.
  apply filterPasses_outside_allow_list.
  - repeat constructor; discriminate.
  - intros [rest Heq]. discriminate.
  - intros k [v Hv] Hex.
    apply Exists_cons in Hex as [Hex|Hex];
      [|apply Exists_cons in Hex as [Hex|Hex]; [|inversion Hex]];
      injection Hex as <-; vm_compute in Hv; discriminate.
Defined.

Lemma filterDiffMap_order_independent_witness :
  filterDiffMap uidDelta [["metadata"; "uid"]; ["spec"]] =
  filterDiffMap uidDelta [["spec"]; ["metadata"; "uid"]].
Proof.
  apply filterDiffMap_order_independent.
  - apply perm_swap.
  - repeat constructor; discriminate.
Defined.

Lemma removePath_deeper_is_redundant_witness :
  removePath (removePath uidDelta ["metadata"])
             (["metadata"] ++ ["uid"])%list =
  removePath uidDelta ["metadata"].
Proof. apply removePath_deeper_is_redundant. discriminate. Defined.

Lemma Match_returns_witness :
  ∃ m' success err,
    Match (EqualObject (namedObject "replicas3")
                       [AllowPaths [["spec"; "replicas"]]])
          (namedObject "replicas5") = Return (m', (success, err)).
Proof.
  apply (@Match_returns fixture
           (EqualObject (namedObject "replicas3")
                        [AllowPaths [["spec"; "replicas"]]])
           (namedObject "replicas5") false false).
  - reflexivity.
  - reflexivity.
  - repeat constructor; discriminate.
Defined.

Lemma Match_panics_with_the_nil_check_witness :
  @Match fixture (@EqualObject fixture NilInterface []) NilInterface =
    Panic ReflectValueError ∧
  @Match fixture (@EqualObject fixture (Named "replicas3") []) NilInterface =
    Panic ReflectValueError ∧
  @Match fixture (@EqualObject fixture NilInterface []) (Named "replicas3") =
    Panic ReflectValueError.
Proof.
  split; [|split].
  - apply (proj1 (@Match_panics_with_the_nil_check fixture
                    (@EqualObject fixture NilInterface []) NilInterface
                    ReflectValueError)).
    reflexivity.
  - apply (proj1 (@Match_panics_with_the_nil_check fixture
                    (@EqualObject fixture (Named "replicas3") []) NilInterface
                    ReflectValueError)).
    reflexivity.
  - apply (proj2 (@Match_panics_with_the_nil_check fixture
                    (@EqualObject fixture NilInterface []) (Named "replicas3")
                    ReflectValueError) false); reflexivity.
Defined.
